(** * Neighbourhood graphs of a regular grid: [cellneigh] and [cellneigh_ctry]

    A shallow embedding of [deforestprob/cellneigh.py] and the properties
    of the two builders it defines.  The file has three parts: the fragment
    of Python and numpy the routines rely on, the routines themselves, and
    the theorems. *)

From Stdlib Require Import String DecimalString.
From Stdlib Require Import ZArith QArith Qround Bool List FinFun Sorted Lia.
Import ListNotations.
Local Open Scope Z_scope.

(** ** The Python fragment *)

Module Py.

(** Exceptions the routines can raise; [SystemExit] carries the status
    given to [sys.exit]. *)
Inductive exn : Type :=
| SystemExit (status : Z)
| ZeroDivisionError
| IndexError
| AttributeError
| ValueError.

Inductive result (A : Type) : Type :=
| Ok (a : A)
| Raise (e : exn).
Arguments Ok {A} a.
Arguments Raise {A} e.

Definition rbind {A B} (r : result A) (k : A -> result B) : result B :=
  match r with
  | Ok a => k a
  | Raise e => Raise e
  end.

(** A computation that prints: the lines written to standard output, in
    order, and the outcome. *)
Definition io (A : Type) : Type := (list string * result A)%type.

Definition ret {A} (a : A) : io A := ([], Ok a).
Definition print (s : string) : io unit := ([s], Ok tt).
Definition throw {A} (e : exn) : io A := ([], Raise e).
Definition lift {A} (r : result A) : io A := ([], r).

Definition bind {A B} (c : io A) (k : A -> io B) : io B :=
  match c with
  | (out, Ok a) => let (out', r) := k a in (out ++ out', r)
  | (out, Raise e) => (out, Raise e)
  end.

(** Numbers: Python 2 integers, and floats idealised as exact rationals
    (rounding, infinities and NaN are not modelled). *)
Inductive pynum : Type :=
| PyInt (z : Z)
| PyFloat (q : Q).

Definition to_Q (n : pynum) : Q :=
  match n with
  | PyInt z => inject_Z z
  | PyFloat q => q
  end.

Definition add (a b : pynum) : pynum :=
  match a, b with
  | PyInt x, PyInt y => PyInt (x + y)
  | _, _ => PyFloat (to_Q a + to_Q b)
  end.

Definition sub (a b : pynum) : pynum :=
  match a, b with
  | PyInt x, PyInt y => PyInt (x - y)
  | _, _ => PyFloat (to_Q a - to_Q b)
  end.

Definition mul (a b : pynum) : pynum :=
  match a, b with
  | PyInt x, PyInt y => PyInt (x * y)
  | _, _ => PyFloat (to_Q a * to_Q b)
  end.

(** [a / b] under Python 2.7 (the file has no [from __future__ import
    division]): floor division on two integers, true division as soon
    as a float is involved, [ZeroDivisionError] on a zero divisor. *)
Definition div (a b : pynum) : result pynum :=
  match a, b with
  | PyInt x, PyInt y =>
      if y =? 0 then Raise ZeroDivisionError else Ok (PyInt (x / y))
  | _, _ =>
      if Qeq_bool (to_Q b) 0 then Raise ZeroDivisionError
      else Ok (PyFloat (to_Q a / to_Q b))
  end.

(** [np.int(np.ceil(x))]. *)
Definition int_ceil (n : pynum) : Z :=
  match n with
  | PyInt z => z
  | PyFloat q => Qceiling q
  end.

(** [int(x)], as the [%d] conversion applies it: truncation to zero. *)
Definition trunc (n : pynum) : Z :=
  match n with
  | PyInt z => z
  | PyFloat q => if Qle_bool 0 q then Qfloor q else Qceiling q
  end.

(** ["%d" % z]. *)
Definition fmt_d (z : Z) : string := NilZero.string_of_int (Z.to_int z).

(** [np.arange(a, b)] on integers; [range(n)] is [arange 0 n]. *)
Definition arange (a b : Z) : list Z :=
  map (fun k => a + Z.of_nat k) (seq 0 (Z.to_nat (b - a))).

Definition range (n : Z) : list Z := arange 0 n.

(** [sum(l)]. *)
Definition sum (l : list Z) : Z := fold_right Z.add 0 l.

(** [seq[k]] for a constant index [k >= 0]. *)
Definition getitem {A} (l : list A) (k : nat) : result A :=
  match nth_error l k with
  | Some a => Ok a
  | None => Raise IndexError
  end.

(** A two-dimensional numpy array, as the list of its rows.  [shape]
    holds for an array of [nrow] rows and [ncol] columns. *)
Definition ndarray2 : Type := list (list Z).

Definition shape (nrow ncol : Z) (m : ndarray2) : Prop :=
  Z.of_nat (length m) = nrow /\
  Forall (fun row => Z.of_nat (length row) = ncol) m.

(** Index normalisation of numpy along an axis of length [n]: a negative
    index counts from the end, anything outside is an [IndexError]. *)
Definition axis_index (n : nat) (k : Z) : result nat :=
  let k' := if k <? 0 then k + Z.of_nat n else k in
  if (0 <=? k') && (k' <? Z.of_nat n) then Ok (Z.to_nat k')
  else Raise IndexError.

(** [m[a, b]]. *)
Definition getitem2 (m : ndarray2) (a b : Z) : result Z :=
  rbind (axis_index (length m) a) (fun a' =>
  let row := nth a' m [] in
  rbind (axis_index (length row) b) (fun b' =>
  Ok (nth b' row 0))).

(** [np.where(m == 1)]: the row indices and the column indices of the
    entries equal to 1, in row-major order. *)
Fixpoint where_row (y : Z) (x : Z) (row : list Z) : list (Z * Z) :=
  match row with
  | [] => []
  | v :: row' =>
      if v =? 1 then (y, x) :: where_row y (x + 1) row'
      else where_row y (x + 1) row'
  end.

Fixpoint where_rows (y : Z) (m : ndarray2) : list (Z * Z) :=
  match m with
  | [] => []
  | row :: m' => where_row y 0 row ++ where_rows (y + 1) m'
  end.

Definition where_eq1 (m : ndarray2) : list Z * list Z :=
  split (where_rows 0 m).

(** The sequences [.index] is called on.  A Python list has the method;
    a numpy array has no attribute of that name. *)
Inductive pyseq : Type :=
| PyList (l : list Z)
| NdArray (l : list Z).

Definition elems (s : pyseq) : list Z :=
  match s with
  | PyList l => l
  | NdArray l => l
  end.

(** [l.index(x)] on a list: the first position of [x], or [ValueError]. *)
Fixpoint list_index (l : list Z) (x : Z) : result Z :=
  match l with
  | [] => Raise ValueError
  | y :: l' =>
      if y =? x then Ok 0
      else rbind (list_index l' x) (fun k => Ok (k + 1))
  end.

Definition index (s : pyseq) (x : Z) : result Z :=
  match s with
  | PyList l => list_index l x
  | NdArray _ => Raise AttributeError
  end.

(** A loop whose body may raise, and a list comprehension whose element
    expression may raise. *)
Fixpoint foldM {S A} (f : S -> A -> result S) (l : list A) (s : S)
  : result S :=
  match l with
  | [] => Ok s
  | a :: l' => rbind (f s a) (foldM f l')
  end.

Fixpoint mapM {A B} (f : A -> result B) (l : list A) : result (list B) :=
  match l with
  | [] => Ok []
  | a :: l' =>
      rbind (f a) (fun b => rbind (mapM f l') (fun bs => Ok (b :: bs)))
  end.

End Py.

Import Py.

Declare Scope py_scope.
Notation "x <- c ;; k" := (bind c (fun x => k))
  (at level 61, c at next level, right associativity) : py_scope.
Notation "' p <- c ;; k" := (bind c (fun x => match x with p => k end))
  (at level 61, p pattern, c at next level, right associativity) : py_scope.
Notation "c ;;; k" := (bind c (fun _ => k))
  (at level 61, right associativity) : py_scope.

Local Open Scope py_scope.

(** ** The routines of [cellneigh.py] *)

(** What [gdal.Open(raster)] gives access to: the raster's size in pixels
    and the six coefficients [gt[0]], ..., [gt[5]] of its geotransform,
    which GDAL returns as floats. *)
Record dataset : Type := {
  RasterXSize : Z;
  RasterYSize : Z;
  gt0 : Q; gt1 : Q; gt2 : Q; gt3 : Q; gt4 : Q; gt5 : Q
}.

(** The extent [(Xmin, Xmax, Ymin, Ymax)]. *)
Definition extent : Type := (pynum * pynum * pynum * pynum)%type.

Definition default_csize : pynum := PyInt 10.
Definition default_rank : Z := 1.

(** [I[(I >= 0) & (I < n)]] for [I = c + around]. *)
Definition clip (around : list Z) (c n : Z) : list Z :=
  filter (fun v => (0 <=? v) && (v <? n)) (map (fun d => c + d) around).

(** The loop [for cy in Iprim: for cx in Jprim: ...] of [cellneigh], run
    on the adjacency list built so far. *)
Definition append_neighbours (ncol i j : Z) (Iprim Jprim adj : list Z)
  : list Z :=
  fold_left (fun adj cy =>
    fold_left (fun adj cx =>
      if negb ((cy =? i) && (cx =? j)) then adj ++ [cy * ncol + cx]
      else adj)
      Jprim adj)
    Iprim adj.

(** Lines 60 to 76 of [cellneigh]: the two nested loops over the grid,
    threading [(nneigh, adj)]. *)
Definition build (ncol nrow rank : Z) : list Z * list Z :=
  let around := arange (- rank) (rank + 1) in
  fold_left (fun st i =>
    fold_left (fun '(nneigh, adj) j =>
      let Iprim := clip around i nrow in
      let Jprim := clip around j ncol in
      (nneigh ++ [Z.of_nat (length Iprim) * Z.of_nat (length Jprim) - 1],
       append_neighbours ncol i j Iprim Jprim adj))
      (range ncol) st)
    (range nrow) ([], []).

(** Lines 154 to 156 of [cellneigh_ctry], the body of the loops over the
    candidates [(cy, cx)] of the included cell [(i, j)]; it threads
    [(adj, nneighbors)].  The test reads [mask[cx, cy]], and reads it only
    for a candidate other than the cell itself ([and] is lazy). *)
Definition retain (mask : ndarray2) (ncol i j : Z) (st : list Z * Z)
  (cand : Z * Z) : result (list Z * Z) :=
  let '(adj, nneighbors) := st in
  let '(cy, cx) := cand in
  if negb ((cy =? i) && (cx =? j)) then
    rbind (getitem2 mask cx cy) (fun v =>
    if v =? 1 then Ok (adj ++ [cy * ncol + cx], nneighbors + 1)
    else Ok (adj, nneighbors))
  else Ok (adj, nneighbors).

(** Lines 151 to 156: [nneighbors = 0], then the two loops. *)
Definition scan_neighbours (mask : ndarray2) (ncol i j : Z)
  (Iprim Jprim : list Z) (adj : list Z) : result (list Z * Z) :=
  foldM (fun st cy =>
    foldM (fun st cx => retain mask ncol i j st (cy, cx)) Jprim st)
    Iprim (adj, 0).

(** Lines 145 to 157, the body of the loops over the grid; it threads
    [(nneigh, adj)]. *)
Definition scan_cell (mask : ndarray2) (ncol nrow : Z) (around : list Z)
  (st : list Z * list Z) (c : Z * Z) : result (list Z * list Z) :=
  let '(nneigh, adj) := st in
  let '(i, j) := c in
  rbind (getitem2 mask i j) (fun v =>
  if v =? 1 then
    let Iprim := clip around i nrow in
    let Jprim := clip around j ncol in
    rbind (scan_neighbours mask ncol i j Iprim Jprim adj)
      (fun '(adj', nneighbors) => Ok (nneigh ++ [nneighbors], adj'))
  else Ok (nneigh, adj)).

(** Lines 140 to 159 of [cellneigh_ctry]. *)
Definition scan (ncol nrow rank : Z) (mask : ndarray2)
  : result (list Z * list Z) :=
  let around := arange (- rank) (rank + 1) in
  foldM (fun st i =>
    foldM (fun st j => scan_cell mask ncol nrow around st (i, j))
      (range ncol) st)
    (range nrow) ([], []).

(** Lines 135 and 136: [cell_in], a numpy array. *)
Definition cell_in_of (ncol : Z) (mask : ndarray2) : pyseq :=
  let (y_in, x_in) := where_eq1 mask in
  NdArray (map (fun '(y, x) => y * ncol + x) (combine y_in x_in)).

(** Line 160: [[cell_in.index(i) for i in adj]]. *)
Definition translate (cell_in : pyseq) (adj : list Z) : result (list Z) :=
  mapM (index cell_in) adj.

(** Lines 135 to 162 of [cellneigh_ctry], from the mask on. *)
Definition build_ctry (ncol nrow rank : Z) (mask : ndarray2)
  : result (list Z * list Z * list Z) :=
  let cell_in := cell_in_of ncol mask in
  rbind (scan ncol nrow rank mask) (fun '(nneigh, adj) =>
  rbind (translate cell_in adj) (fun adj_rank =>
  Ok (nneigh, adj_rank, elems cell_in))).

Section Routines.

(** The collaborators: [gdal.Open], which yields no dataset for a path it
    cannot open, and the rasterisation of the vector layer at resolution
    [csize] over the extent. *)
Variable gdal_Open : string -> option dataset.
Variable gdal_Rasterize : string -> pynum -> extent -> ndarray2.

(** Lines 31 to 47, shared by the two routines. *)
Definition resolve_region (raster : option string)
  (region : option (list pynum)) : io extent :=
  match raster with
  | Some path =>
      match gdal_Open path with
      | None => throw AttributeError
      | Some r =>
          let ncol_r := PyInt (RasterXSize r) in
          let nrow_r := PyInt (RasterYSize r) in
          let Xmin := PyFloat (gt0 r) in
          let Xmax := add (PyFloat (gt0 r)) (mul (PyFloat (gt1 r)) ncol_r) in
          let Ymin := add (PyFloat (gt3 r)) (mul (PyFloat (gt5 r)) nrow_r) in
          let Ymax := PyFloat (gt3 r) in
          ret (Xmin, Xmax, Ymin, Ymax)
      end
  | None =>
      match region with
      | Some region =>
          Xmin <- lift (getitem region 0) ;;
          Xmax <- lift (getitem region 1) ;;
          Ymin <- lift (getitem region 2) ;;
          Ymax <- lift (getitem region 3) ;;
          ret (Xmin, Xmax, Ymin, Ymax)
      | None =>
          print "raster or region must be specified" ;;;
          throw (SystemExit 1)
      end
  end.

(** Lines 49 to 56, shared by the two routines; returns [csize] in metres
    with [(ncol, nrow)]. *)
Definition grid (ext : extent) (csize : pynum) : io (pynum * Z * Z) :=
  let '(Xmin, Xmax, Ymin, Ymax) := ext in
  print ("Compute number of " ++ fmt_d (trunc csize) ++ " x "
         ++ fmt_d (trunc csize) ++ " km spatial cells")%string ;;;
  let csize := mul csize (PyInt 1000) in
  qx <- lift (div (sub Xmax Xmin) csize) ;;
  let ncol := int_ceil qx in
  qy <- lift (div (sub Ymax Ymin) csize) ;;
  let nrow := int_ceil qy in
  let ncell := ncol * nrow in
  print ("... " ++ fmt_d ncell ++ " cells (" ++ fmt_d nrow ++ " x "
         ++ fmt_d ncol ++ ")")%string ;;;
  ret (csize, ncol, nrow).

Definition cellneigh (raster : option string) (region : option (list pynum))
  (csize : pynum) (rank : Z) : io (list Z * list Z) :=
  ext <- resolve_region raster region ;;
  '(_, ncol, nrow) <- grid ext csize ;;
  print "Identify adjacent cells and compute number of neighbors" ;;;
  ret (build ncol nrow rank).

Definition cellneigh_ctry (raster : option string)
  (region : option (list pynum)) (vector : string)
  (csize : pynum) (rank : Z) : io (list Z * list Z * list Z) :=
  ext <- resolve_region raster region ;;
  '(csize_m, ncol, nrow) <- grid ext csize ;;
  let mask := gdal_Rasterize vector csize_m ext in
  print "Identify adjacent cells and compute number of neighbors" ;;;
  lift (build_ctry ncol nrow rank mask).

End Routines.

(** ** Reading the outputs *)

(** The cells [(i, j)] in the order the two [for] loops visit them. *)
Definition cells (ncol nrow : Z) : list (Z * Z) :=
  flat_map (fun i => map (fun j => (i, j)) (range ncol)) (range nrow).

(** What one pass of the body of [cellneigh] appends for the cell
    [(i, j)]: the count, and the neighbours. *)
Definition count (ncol nrow rank : Z) (c : Z * Z) : Z :=
  let around := arange (- rank) (rank + 1) in
  Z.of_nat (length (clip around (fst c) nrow))
  * Z.of_nat (length (clip around (snd c) ncol)) - 1.

Definition neighbours (ncol nrow rank : Z) (c : Z * Z) : list Z :=
  let around := arange (- rank) (rank + 1) in
  flat_map (fun cy =>
    flat_map (fun cx =>
      if negb ((cy =? fst c) && (cx =? snd c)) then [cy * ncol + cx]
      else [])
      (clip around (snd c) ncol))
    (clip around (fst c) nrow).

(** The slice of the flat adjacency list that belongs to the [c]-th
    count: [adj[s : s + nneigh[c]]] with [s = sum(nneigh[:c])]. *)
Definition segment (nneigh adj : list Z) (c : nat) : list Z :=
  firstn (Z.to_nat (nth c nneigh 0))
    (skipn (Z.to_nat (sum (firstn c nneigh))) adj).

(** The number of entries of the mask equal to 1. *)
Definition count_ones (mask : ndarray2) : nat :=
  length (filter (fun v => v =? 1) (concat mask)).

(** The neighbour segment of the cell at position [a], and its neighbour
    count, in the output of the unconstrained builder. *)
Definition cell_segment (ncol nrow rank : Z) (a : nat) : list Z :=
  segment (fst (build ncol nrow rank)) (snd (build ncol nrow rank)) a.

Definition cell_count (ncol nrow rank : Z) (a : nat) : Z :=
  nth a (fst (build ncol nrow rank)) 0.

(** Where a cell lies in the grid. *)
Definition on_row_edge (nrow i : Z) : Prop := i = 0 \/ i = nrow - 1.
Definition on_col_edge (ncol j : Z) : Prop := j = 0 \/ j = ncol - 1.

Definition interior (ncol nrow i j : Z) : Prop :=
  ~ on_row_edge nrow i /\ ~ on_col_edge ncol j.
Definition corner (ncol nrow i j : Z) : Prop :=
  on_row_edge nrow i /\ on_col_edge ncol j.
Definition plain_edge (ncol nrow i j : Z) : Prop :=
  (on_row_edge nrow i /\ ~ on_col_edge ncol j) \/
  (~ on_row_edge nrow i /\ on_col_edge ncol j).

(** The linear id of a cell, and whether the mask marks it ([mask[i, j]
    == 1], as line 145 reads it). *)
Definition lin (ncol : Z) (c : Z * Z) : Z := fst c * ncol + snd c.

Definition included (mask : ndarray2) (c : Z * Z) : bool :=
  match getitem2 mask (fst c) (snd c) with
  | Ok v => v =? 1
  | Raise _ => false
  end.

(** What the loops over the candidates append for the marked cell [c]:
    the candidates [(cy, cx)] other than [c] for which the entry the code
    reads, [mask[cx, cy]], is 1.  [marked] lists the cells the outer loops
    retain, in the order they visit them. *)
Definition retained (mask : ndarray2) (ncol nrow rank : Z) (c : Z * Z)
  : list Z :=
  let around := arange (- rank) (rank + 1) in
  flat_map (fun cy =>
    flat_map (fun cx =>
      if negb ((cy =? fst c) && (cx =? snd c)) && included mask (cx, cy)
      then [cy * ncol + cx] else [])
      (clip around (snd c) ncol))
    (clip around (fst c) nrow).

Definition marked (mask : ndarray2) (ncol nrow : Z) : list (Z * Z) :=
  filter (included mask) (cells ncol nrow).

(** ** Concrete runs *)

Example scenario_3x3 :
  build 3 3 1 =
  ([3; 5; 3; 5; 8; 5; 3; 5; 3],
   [1; 3; 4;  0; 2; 3; 4; 5;  1; 4; 5;
    0; 1; 4; 6; 7;  0; 1; 2; 3; 5; 6; 7; 8;  1; 2; 4; 7; 8;
    3; 4; 7;  3; 4; 5; 6; 8;  4; 5; 7]).
Proof. reflexivity. Qed.

Example scenario_3x3_centre :
  let '(nneigh, adj) := build 3 3 1 in
  segment nneigh adj 4 = [0; 1; 2; 3; 5; 6; 7; 8].
Proof. reflexivity. Qed.

Example scenario_rank5 : build 2 1 5 = ([1; 1], [1; 0]).
Proof. reflexivity. Qed.

Example scenario_negative_rank : build 2 2 (-1) = ([-1; -1; -1; -1], []).
Proof. reflexivity. Qed.

(** On the checkerboard the diagonal cells are king-move neighbours of the
    centre, so the scan does collect neighbours. *)
Example scenario_checkerboard_scan :
  scan 3 3 1 [[1; 0; 1]; [0; 1; 0]; [1; 0; 1]] =
  Ok ([1; 1; 4; 1; 1], [4; 4; 0; 2; 6; 8; 4; 4]).
Proof. reflexivity. Qed.

Example scenario_checkerboard :
  build_ctry 3 3 1 [[1; 0; 1]; [0; 1; 0]; [1; 0; 1]] = Raise AttributeError.
Proof. reflexivity. Qed.

Example scenario_isolated :
  build_ctry 3 3 1 [[1; 0; 1]; [0; 0; 0]; [1; 0; 1]] =
  Ok ([0; 0; 0; 0], [], [0; 2; 6; 8]).
Proof. reflexivity. Qed.

(** ** Loops that append *)

Section Appending.

Context {A B C : Type}.

(** A loop whose body appends [g x] to the list it threads builds the
    concatenation of the [g x]. *)
Lemma fold_left_append (step : list B -> A -> list B) (g : A -> list B) :
  (forall acc x, step acc x = acc ++ g x) ->
  forall l acc, fold_left step l acc = acc ++ flat_map g l.
Proof.
  intros Hstep l; induction l as [|x l IH]; intros acc; simpl.
  - now rewrite app_nil_r.
  - rewrite IH, Hstep, <- app_assoc. reflexivity.
Qed.

(** The same for a loop that threads two lists. *)
Lemma fold_left_append2 (step : list B * list C -> A -> list B * list C)
  (g : A -> list B) (h : A -> list C) :
  (forall s x, step s x = (fst s ++ g x, snd s ++ h x)) ->
  forall l s,
    fold_left step l s = (fst s ++ flat_map g l, snd s ++ flat_map h l).
Proof.
  intros Hstep l; induction l as [|x l IH]; intros s; simpl.
  - rewrite !app_nil_r. now destruct s.
  - rewrite IH, Hstep; simpl. now rewrite <- !app_assoc.
Qed.

End Appending.

Lemma flat_map_singleton {A B} (f : A -> B) (l : list A) :
  flat_map (fun x => [f x]) l = map f l.
Proof. induction l; simpl; congruence. Qed.

Lemma flat_map_pairs {A B C} (f : A * B -> list C) (rows : list A)
  (cols : list B) :
  flat_map f (flat_map (fun i => map (fun j => (i, j)) cols) rows)
  = flat_map (fun i => flat_map (fun j => f (i, j)) cols) rows.
Proof.
  induction rows as [|i rows IH]; simpl; [reflexivity|].
  rewrite flat_map_app, IH. f_equal. clear IH.
  induction cols as [|j cols IHc]; simpl; congruence.
Qed.

(** ** The unconstrained builder, cell by cell *)

Lemma append_neighbours_eq ncol nrow rank i j adj :
  let around := arange (- rank) (rank + 1) in
  append_neighbours ncol i j (clip around i nrow) (clip around j ncol) adj
  = adj ++ neighbours ncol nrow rank (i, j).
Proof.
  intros around. unfold append_neighbours, neighbours; simpl.
  apply fold_left_append. intros acc cy.
  apply fold_left_append. intros acc' cx.
  destruct (negb _); [reflexivity | now rewrite app_nil_r].
Qed.

(** [build] yields one count per cell, and the neighbours of the cells
    one cell after the other. *)
Lemma build_cells ncol nrow rank :
  build ncol nrow rank
  = (map (count ncol nrow rank) (cells ncol nrow),
     flat_map (neighbours ncol nrow rank) (cells ncol nrow)).
Proof.
  unfold build, cells.
  rewrite <- flat_map_singleton, !flat_map_pairs.
  apply (fold_left_append2 _
    (fun i => flat_map (fun j => [count ncol nrow rank (i, j)]) (range ncol))
    (fun i => flat_map (fun j => neighbours ncol nrow rank (i, j))
                (range ncol))).
  intros s i.
  apply (fold_left_append2 _
    (fun j => [count ncol nrow rank (i, j)])
    (fun j => neighbours ncol nrow rank (i, j))).
  intros [nneigh adj] j. cbv zeta.
  rewrite append_neighbours_eq. reflexivity.
Qed.

(** ** Ranges and clipped windows *)

Lemma In_arange a b v : In v (arange a b) <-> a <= v < b.
Proof.
  unfold arange. rewrite in_map_iff. split.
  - intros [k [<- Hk]]. apply in_seq in Hk. lia.
  - intros H. exists (Z.to_nat (v - a)). split; [lia|].
    apply in_seq. lia.
Qed.

Lemma NoDup_arange a b : NoDup (arange a b).
Proof.
  unfold arange. apply Injective_map_NoDup; [|apply seq_NoDup].
  intros x y H. lia.
Qed.

Lemma length_arange a b : length (arange a b) = Z.to_nat (b - a).
Proof. unfold arange. now rewrite length_map, length_seq. Qed.

Lemma nth_error_range n k :
  (Z.of_nat k < n) -> nth_error (range n) k = Some (Z.of_nat k).
Proof.
  intros H. unfold range, arange.
  rewrite nth_error_map, nth_error_seq.
  destruct (Nat.ltb_spec k (Z.to_nat (n - 0))) as [_|Hge]; [reflexivity|lia].
Qed.

Lemma In_clip rank c n v :
  In v (clip (arange (- rank) (rank + 1)) c n)
  <-> 0 <= v < n /\ - rank <= v - c <= rank.
Proof.
  unfold clip. rewrite filter_In, in_map_iff. split.
  - intros [[d [<- Hd]] Hb]. apply In_arange in Hd. lia.
  - intros [Hv Hr]. split; [|lia].
    exists (v - c). split; [lia|]. apply In_arange. lia.
Qed.

Lemma NoDup_clip rank c n : NoDup (clip (arange (- rank) (rank + 1)) c n).
Proof.
  unfold clip. apply NoDup_filter.
  apply Injective_map_NoDup; [|apply NoDup_arange].
  intros x y H. lia.
Qed.

Lemma In_cells ncol nrow i j :
  In (i, j) (cells ncol nrow) <-> 0 <= i < nrow /\ 0 <= j < ncol.
Proof.
  unfold cells. rewrite in_flat_map. split.
  - intros [i' [Hi Hj]]. apply in_map_iff in Hj as [j' [E Hj]].
    inversion E; subst. apply In_arange in Hi, Hj. lia.
  - intros [Hi Hj]. exists i. split; [apply In_arange; lia|].
    apply in_map_iff. exists j. split; [reflexivity|apply In_arange; lia].
Qed.

(** ** Counting what a cell appends *)

Lemma length_flat_map_const {A B} (g : A -> list B) (n : nat) (l : list A) :
  (forall x, In x l -> length (g x) = n) ->
  length (flat_map g l) = (length l * n)%nat.
Proof.
  induction l as [|x l IH]; intros H; simpl; [reflexivity|].
  rewrite length_app, IH, (H x); auto using in_eq, in_cons.
Qed.

(** When every element but [a] contributes [n] entries, and [a] occurs
    once, the total is short of [length l * n] by what [a] lacks. *)
Lemma length_flat_map_except {B} (g : Z -> list B) (a : Z) (n : nat)
  (l : list Z) :
  NoDup l -> In a l ->
  (forall x, x <> a -> length (g x) = n) ->
  (length (flat_map g l) + n = length l * n + length (g a))%nat.
Proof.
  induction l as [|x l IH]; intros Hnd Hin Hg; [destruct Hin|].
  inversion Hnd as [|? ? Hx Hnd']; subst. simpl.
  rewrite length_app.
  destruct (Z.eq_dec x a) as [->|Hne].
  - rewrite (length_flat_map_const g n l); [lia|].
    intros y Hy. apply Hg. intros ->. contradiction.
  - destruct Hin as [E|Hin]; [contradiction|].
    specialize (IH Hnd' Hin Hg). rewrite (Hg x Hne). lia.
Qed.

(** Line 70 against lines 71 to 74: the count appended for a cell of the
    grid is the number of neighbours appended for it. *)
Lemma count_neighbours ncol nrow rank i j :
  0 <= rank -> 0 <= i < nrow -> 0 <= j < ncol ->
  count ncol nrow rank (i, j)
  = Z.of_nat (length (neighbours ncol nrow rank (i, j))).
Proof.
  intros Hr Hi Hj. unfold count, neighbours; simpl.
  set (Ip := clip _ i nrow). set (Jp := clip _ j ncol).
  set (cell := fun cy cx : Z =>
    if negb ((cy =? i) && (cx =? j)) then [cy * ncol + cx] else []).
  change (Z.of_nat (length Ip) * Z.of_nat (length Jp) - 1
    = Z.of_nat (length (flat_map (fun cy => flat_map (cell cy) Jp) Ip))).
  assert (HiI : In i Ip) by (apply In_clip; lia).
  assert (HjJ : In j Jp) by (apply In_clip; lia).
  assert (Hij : cell i j = []) by (unfold cell; now rewrite !Z.eqb_refl).
  assert (Hrow : (length (flat_map (cell i) Jp) + 1 = length Jp)%nat).
  { pose proof (length_flat_map_except (cell i) j 1%nat Jp
      (NoDup_clip _ _ _) HjJ) as H.
    rewrite Hij in H. simpl in H. rewrite H; [lia|].
    intros x Hx. unfold cell.
    destruct (Z.eqb_spec x j); [contradiction|].
    now rewrite andb_false_r. }
  pose proof (length_flat_map_except (fun cy => flat_map (cell cy) Jp)
    i (length Jp) Ip (NoDup_clip _ _ _) HiI) as H.
  rewrite <- Nat2Z.inj_mul.
  enough ((length (flat_map (fun cy => flat_map (cell cy) Jp) Ip)
           + length Jp
           = length Ip * length Jp + length (flat_map (cell i) Jp))%nat)
    by lia.
  apply H. intros x Hx.
  rewrite (length_flat_map_const _ 1%nat); [lia|].
  intros cx _. unfold cell.
  now destruct (Z.eqb_spec x i).
Qed.

Lemma In_neighbours ncol nrow rank i j b :
  In b (neighbours ncol nrow rank (i, j)) <->
  exists cy cx,
    b = cy * ncol + cx /\
    (0 <= cy < nrow /\ - rank <= cy - i <= rank) /\
    (0 <= cx < ncol /\ - rank <= cx - j <= rank) /\
    ~ (cy = i /\ cx = j).
Proof.
  unfold neighbours; simpl. rewrite in_flat_map. split.
  - intros [cy [Hcy Hb]]. apply in_flat_map in Hb as [cx [Hcx Hb]].
    exists cy, cx. apply In_clip in Hcy, Hcx.
    destruct (Z.eqb_spec cy i), (Z.eqb_spec cx j); simpl in Hb;
      try destruct Hb as [<-|[]]; try contradiction; repeat split; lia.
  - intros [cy [cx [-> [Hcy [Hcx Hne]]]]].
    exists cy. split; [now apply In_clip|].
    apply in_flat_map. exists cx. split; [now apply In_clip|].
    destruct (Z.eqb_spec cy i), (Z.eqb_spec cx j); simpl; auto.
Qed.

(** ** Segments of a flat list *)

Lemma sum_lengths_nonneg {A B} (g : A -> list B) (l : list A) :
  0 <= sum (map (fun y => Z.of_nat (length (g y))) l).
Proof. induction l; simpl; lia. Qed.

Lemma firstn_map_lengths {A B} (g : A -> list B) (l : list A) c :
  firstn c (map (fun y => Z.of_nat (length (g y))) l)
  = map (fun y => Z.of_nat (length (g y))) (firstn c l).
Proof. apply firstn_map. Qed.

(** Slicing the concatenation of the [g y] by their lengths gives back
    the [c]-th of them. *)
Lemma segment_flat_map {A} (g : A -> list Z) (l : list A) c x :
  nth_error l c = Some x ->
  segment (map (fun y => Z.of_nat (length (g y))) l) (flat_map g l) c = g x.
Proof.
  unfold segment. revert c. induction l as [|y l IH]; intros c Hc.
  - now destruct c.
  - destruct c as [|c]; simpl in Hc.
    + injection Hc as ->. simpl.
      rewrite Nat2Z.id, firstn_app, Nat.sub_diag, firstn_all. simpl.
      apply app_nil_r.
    + specialize (IH c Hc). cbn [map nth firstn sum fold_right flat_map].
      pose proof (sum_lengths_nonneg g (firstn c l)) as Hs.
      rewrite firstn_map_lengths in *. unfold sum in *.
      rewrite Z2Nat.inj_add by lia. rewrite Nat2Z.id.
      rewrite skipn_app, skipn_all2 by lia.
      rewrite Nat.add_comm, Nat.add_sub. exact IH.
Qed.

Lemma segment_beyond nneigh adj c :
  (length nneigh <= c)%nat -> segment nneigh adj c = [].
Proof.
  intros H. unfold segment. now rewrite nth_overflow.
Qed.

Lemma segment_nil nneigh c : segment nneigh [] c = [].
Proof. unfold segment. now rewrite skipn_nil, firstn_nil. Qed.

(** ** Linear ids *)

Lemma nth_error_flat_map_const {A B} (g : A -> list B) (n : nat)
  (l : list A) k m x :
  (forall y, In y l -> length (g y) = n) ->
  nth_error l k = Some x -> (m < n)%nat ->
  nth_error (flat_map g l) (k * n + m) = nth_error (g x) m.
Proof.
  revert k. induction l as [|y l IH]; intros k Hlen Hk Hm.
  - now destruct k.
  - destruct k as [|k]; simpl in *.
    + injection Hk as ->. rewrite nth_error_app1; [reflexivity|].
      rewrite (Hlen x); auto.
    + rewrite nth_error_app2; rewrite (Hlen y) by auto; [|lia].
      replace (n + k * n + m - n)%nat with (k * n + m)%nat by lia.
      apply IH; auto.
Qed.

Lemma length_cells ncol nrow :
  length (cells ncol nrow) = (Z.to_nat nrow * Z.to_nat ncol)%nat.
Proof.
  unfold cells.
  rewrite (length_flat_map_const _ (Z.to_nat ncol)).
  - unfold range. rewrite length_arange. f_equal. lia.
  - intros i _. unfold range. rewrite length_map, length_arange. lia.
Qed.

(** The cell [(i, j)] is visited at position [i * ncol + j]. *)
Lemma nth_error_cells ncol nrow i j :
  0 <= i < nrow -> 0 <= j < ncol ->
  nth_error (cells ncol nrow) (Z.to_nat (i * ncol + j)) = Some (i, j).
Proof.
  intros Hi Hj. unfold cells.
  replace (Z.to_nat (i * ncol + j))
    with (Z.to_nat i * Z.to_nat ncol + Z.to_nat j)%nat by nia.
  rewrite (nth_error_flat_map_const _ (Z.to_nat ncol) _ _ _ i).
  - rewrite nth_error_map, nth_error_range by lia. simpl.
    now rewrite Z2Nat.id by lia.
  - intros y _. unfold range. rewrite length_map, length_arange. lia.
  - rewrite nth_error_range by lia. now rewrite Z2Nat.id by lia.
  - lia.
Qed.

Lemma nth_error_cells_inv ncol nrow a i j :
  nth_error (cells ncol nrow) a = Some (i, j) ->
  0 <= i < nrow /\ 0 <= j < ncol /\ Z.of_nat a = i * ncol + j.
Proof.
  intros H.
  pose proof (nth_error_In _ _ H) as Hin. apply In_cells in Hin.
  destruct Hin as [Hi Hj]. split; [exact Hi|]. split; [exact Hj|].
  assert (Ha : (a < length (cells ncol nrow))%nat)
    by (apply nth_error_Some; congruence).
  rewrite length_cells in Ha.
  assert (Hlt : Z.of_nat a < nrow * ncol) by nia.
  pose proof (Z.div_mod (Z.of_nat a) ncol ltac:(lia)) as Hdm.
  pose proof (Z.mod_pos_bound (Z.of_nat a) ncol ltac:(lia)) as Hm.
  assert (Hq : 0 <= Z.of_nat a / ncol < nrow).
  { split; [apply Z.div_pos; lia|]. apply Z.div_lt_upper_bound; lia. }
  pose proof (nth_error_cells ncol nrow _ _ Hq Hm) as H'.
  replace (Z.to_nat (Z.of_nat a / ncol * ncol + Z.of_nat a mod ncol))
    with a in H' by lia.
  rewrite H in H'. injection H' as -> ->. lia.
Qed.

(** ** The unconstrained builder: segments and counts *)

Lemma arange_empty a b : b <= a -> arange a b = [].
Proof.
  intros H. unfold arange. now replace (Z.to_nat (b - a)) with 0%nat by lia.
Qed.

Lemma build_negative_rank ncol nrow rank :
  rank < 0 -> snd (build ncol nrow rank) = [].
Proof.
  intros H. rewrite build_cells; simpl.
  induction (cells ncol nrow) as [|c l IH]; simpl; [reflexivity|].
  rewrite IH. unfold neighbours, clip.
  rewrite arange_empty by lia. reflexivity.
Qed.

Lemma cell_count_at ncol nrow rank a c :
  nth_error (cells ncol nrow) a = Some c ->
  cell_count ncol nrow rank a = count ncol nrow rank c.
Proof.
  intros H. unfold cell_count. rewrite build_cells; simpl.
  apply nth_error_nth. now apply map_nth_error.
Qed.

Lemma cell_segment_at ncol nrow rank a c :
  0 <= rank -> nth_error (cells ncol nrow) a = Some c ->
  cell_segment ncol nrow rank a = neighbours ncol nrow rank c.
Proof.
  intros Hr H. unfold cell_segment. rewrite build_cells; simpl.
  rewrite (map_ext_in (count ncol nrow rank)
    (fun c => Z.of_nat (length (neighbours ncol nrow rank c)))).
  - now apply segment_flat_map.
  - intros [i j] Hin. apply In_cells in Hin.
    apply count_neighbours; lia.
Qed.

(** A cell that has a non-empty segment is a cell of the grid. *)
Lemma cell_segment_inhabited ncol nrow rank a b :
  In b (cell_segment ncol nrow rank a) ->
  0 <= rank /\ exists i j, nth_error (cells ncol nrow) a = Some (i, j).
Proof.
  intros H. unfold cell_segment in H.
  destruct (Z.ltb_spec rank 0) as [Hneg|Hr].
  - rewrite build_negative_rank, segment_nil in H by assumption.
    destruct H.
  - split; [assumption|].
    destruct (nth_error (cells ncol nrow) a) as [[i j]|] eqn:E; [eauto|].
    apply nth_error_None in E.
    rewrite segment_beyond in H; [destruct H|].
    rewrite build_cells; simpl. now rewrite length_map.
Qed.

(** The window of rank 1 holds two or three indices. *)
Lemma length_clip1 c n :
  2 <= n -> 0 <= c < n ->
  length (clip (arange (- 1) (1 + 1)) c n)
  = if (c =? 0) || (c =? n - 1) then 2%nat else 3%nat.
Proof.
  intros Hn Hc. unfold clip. simpl.
  destruct (Z.eqb_spec c 0), (Z.eqb_spec c (n - 1)); simpl;
    repeat match goal with
    | |- context [?a <=? ?b] => destruct (Z.leb_spec a b); try lia; simpl
    | |- context [?a <? ?b] => destruct (Z.ltb_spec a b); try lia; simpl
    end; reflexivity.
Qed.

Lemma sum_map_lengths {A B} (f : A -> Z) (g : A -> list B) (l : list A) :
  (forall x, In x l -> f x = Z.of_nat (length (g x))) ->
  sum (map f l) = Z.of_nat (length (flat_map g l)).
Proof.
  induction l as [|x l IH]; intros H; simpl; [reflexivity|].
  rewrite length_app, Nat2Z.inj_add, <- IH, <- (H x);
    auto using in_eq, in_cons.
Qed.

(** X1.  For a rank that is not negative, the counts the unconstrained
    builder returns add up to the length of the adjacency list it
    returns, on every grid. *)
Lemma build_sum_counts ncol nrow rank :
  0 <= rank ->
  sum (fst (build ncol nrow rank))
  = Z.of_nat (length (snd (build ncol nrow rank))).
Proof.
  intros Hr. rewrite build_cells; simpl.
  apply sum_map_lengths. intros [i j] Hin. apply In_cells in Hin.
  apply count_neighbours; lia.
Qed.

(** X2.  In the output of the unconstrained builder no cell is listed
    among its own neighbours, for every grid, rank and position. *)
Lemma build_no_self_loop ncol nrow rank (a : nat) :
  ~ In (Z.of_nat a) (cell_segment ncol nrow rank a).
Proof.
  intros H.
  destruct (cell_segment_inhabited _ _ _ _ _ H) as [Hr [i [j Hc]]].
  rewrite (cell_segment_at _ _ _ _ _ Hr Hc) in H.
  apply In_neighbours in H as [cy [cx [Hb [Hcy [Hcx Hne]]]]].
  destruct (nth_error_cells_inv _ _ _ _ _ Hc) as [Hi [Hj Ha]].
  rewrite Ha in Hb.
  assert (cy = i) by nia. subst cy.
  apply Hne. split; [reflexivity|lia].
Qed.

(** C5.  In the output of the unconstrained builder at rank 1, on a grid
    with at least two rows and two columns, the neighbour count of the cell
    in row [i] and column [j] (at position [i * ncol + j]) is 8 when the
    cell touches no edge of the grid, 3 when it is a corner and 5 when it
    lies on an edge without being a corner. *)
Theorem rank1_neighbour_counts ncol nrow i j :
  2 <= ncol -> 2 <= nrow -> 0 <= i < nrow -> 0 <= j < ncol ->
  let n := cell_count ncol nrow 1 (Z.to_nat (i * ncol + j)) in
  (interior ncol nrow i j -> n = 8) /\
  (corner ncol nrow i j -> n = 3) /\
  (plain_edge ncol nrow i j -> n = 5).
Proof.
  intros Hc Hr Hi Hj n. subst n.
  rewrite (cell_count_at _ _ _ _ (i, j)) by (apply nth_error_cells; lia).
  unfold count; simpl. rewrite !length_clip1 by lia.
  unfold interior, corner, plain_edge, on_row_edge, on_col_edge.
  destruct (Z.eqb_spec i 0), (Z.eqb_spec i (nrow - 1)),
    (Z.eqb_spec j 0), (Z.eqb_spec j (ncol - 1)); simpl; lia.
Qed.

Lemma rank1_neighbour_counts_witness :
  cell_count 3 3 1 4 = 8 /\ cell_count 3 3 1 0 = 3 /\ cell_count 3 3 1 1 = 5.
Proof.
  split; [|split].
  - refine (proj1 (rank1_neighbour_counts 3 3 1 1 _ _ _ _) _);
      unfold interior, on_row_edge, on_col_edge; lia.
  - refine (proj1 (proj2 (rank1_neighbour_counts 3 3 0 0 _ _ _ _)) _);
      unfold corner, on_row_edge, on_col_edge; lia.
  - refine (proj2 (proj2 (rank1_neighbour_counts 3 3 0 1 _ _ _ _)) _);
      unfold plain_edge, on_row_edge, on_col_edge; lia.
Defined.

(** C6.  The adjacency the unconstrained builder returns is symmetric, for
    every grid and every rank: an entry [b] of the neighbour segment of
    the cell at position [a] is the position of a cell, and the segment of
    that cell holds [a]. *)
Theorem adjacency_symmetric ncol nrow rank (a : nat) (b : Z) :
  In b (cell_segment ncol nrow rank a) ->
  0 <= b /\ In (Z.of_nat a) (cell_segment ncol nrow rank (Z.to_nat b)).
Proof.
  intros H.
  destruct (cell_segment_inhabited _ _ _ _ _ H) as [Hr [i [j Hc]]].
  rewrite (cell_segment_at _ _ _ _ _ Hr Hc) in H.
  apply In_neighbours in H as [cy [cx [-> [Hcy [Hcx Hne]]]]].
  destruct (nth_error_cells_inv _ _ _ _ _ Hc) as [Hi [Hj Ha]].
  split; [nia|].
  rewrite (cell_segment_at ncol nrow rank _ (cy, cx) Hr)
    by (apply nth_error_cells; lia).
  apply In_neighbours. exists i, j. rewrite Ha.
  repeat split; try lia.
Qed.

Lemma adjacency_symmetric_witness :
  In 5 (cell_segment 3 3 1 1) /\ In 1 (cell_segment 3 3 1 5).
Proof.
  assert (H : In 5 (cell_segment 3 3 1 1)) by (vm_compute; tauto).
  split; [exact H|].
  exact (proj2 (adjacency_symmetric 3 3 1 1%nat 5 H)).
Defined.

(** ** Loops that may raise *)

Section FoldM.

Context {S A : Type}.

Lemma foldM_app (f : S -> A -> result S) l1 l2 s :
  foldM f (l1 ++ l2) s = rbind (foldM f l1 s) (foldM f l2).
Proof.
  revert s. induction l1 as [|x l1 IH]; intros s; simpl; [reflexivity|].
  destruct (f s x); simpl; auto.
Qed.

Lemma foldM_map {B} (f : S -> A -> result S) (g : B -> A) l s :
  foldM f (map g l) s = foldM (fun s x => f s (g x)) l s.
Proof.
  revert s. induction l as [|x l IH]; intros s; simpl; [reflexivity|].
  destruct (f s (g x)); simpl; auto.
Qed.

(** A property of the elements gone through and of the state, kept by
    every pass that does not raise, holds when the loop ends. *)
Lemma foldM_prefix (P : list A -> S -> Prop) (f : S -> A -> result S) :
  (forall pre x s s', P pre s -> f s x = Ok s' -> P (pre ++ [x]) s') ->
  forall l pre s s', P pre s -> foldM f l s = Ok s' -> P (pre ++ l) s'.
Proof.
  intros Hstep l. induction l as [|x l IH]; intros pre s s' HP H; simpl in H.
  - injection H as <-. now rewrite app_nil_r.
  - destruct (f s x) as [s1|e] eqn:E; simpl in H; [|discriminate].
    replace (pre ++ x :: l) with ((pre ++ [x]) ++ l)
      by now rewrite <- app_assoc.
    eapply IH; eauto.
Qed.

(** A loop whose passes leave the state as it is, and do not raise. *)
Lemma foldM_idle (f : S -> A -> result S) l s :
  (forall x, In x l -> f s x = Ok s) -> foldM f l s = Ok s.
Proof.
  induction l as [|x l IH]; intros H; simpl; [reflexivity|].
  rewrite (H x) by apply in_eq. simpl. apply IH.
  intros y Hy. apply H. now apply in_cons.
Qed.

End FoldM.

(** Two nested loops are one loop over the pairs. *)
Lemma foldM_nested {S A B} (f : S -> A * B -> result S) rows cols s :
  foldM (fun s i => foldM (fun s j => f s (i, j)) cols s) rows s
  = foldM f (flat_map (fun i => map (fun j => (i, j)) cols) rows) s.
Proof.
  revert s. induction rows as [|i rows IH]; intros s; simpl; [reflexivity|].
  rewrite foldM_app, foldM_map.
  destruct (foldM _ cols s); simpl; auto.
Qed.

Lemma mapM_length {A B} (f : A -> result B) l l' :
  mapM f l = Ok l' -> length l' = length l.
Proof.
  revert l'. induction l as [|x l IH]; intros l' H; simpl in H.
  - now injection H as <-.
  - destruct (f x); simpl in H; [|discriminate].
    destruct (mapM f l); simpl in H; [|discriminate].
    injection H as <-. simpl. f_equal. now apply IH.
Qed.

Lemma mapM_Forall2 {A B} (f : A -> result B) l l' :
  mapM f l = Ok l' -> Forall2 (fun x y => f x = Ok y) l l'.
Proof.
  revert l'. induction l as [|x l IH]; intros l' H; simpl in H.
  - injection H as <-. constructor.
  - destruct (f x) eqn:E; simpl in H; [|discriminate].
    destruct (mapM f l); simpl in H; [|discriminate].
    injection H as <-. constructor; auto.
Qed.

(** ** The scan of the masked builder *)

Lemma scan_cells ncol nrow rank mask :
  scan ncol nrow rank mask
  = foldM (scan_cell mask ncol nrow (arange (- rank) (rank + 1)))
      (cells ncol nrow) ([], []).
Proof. unfold scan, cells. apply foldM_nested. Qed.

(** What the loops over the candidates append is a sublist of the
    neighbours the unconstrained builder appends for the cell, and
    [nneighbors] is its length. *)
Lemma scan_neighbours_spec mask ncol nrow rank i j adj adj' n :
  let around := arange (- rank) (rank + 1) in
  scan_neighbours mask ncol i j (clip around i nrow) (clip around j ncol) adj
  = Ok (adj', n) ->
  exists seg,
    adj' = adj ++ seg /\ n = Z.of_nat (length seg) /\
    incl seg (neighbours ncol nrow rank (i, j)).
Proof.
  intros around H. unfold scan_neighbours in H.
  rewrite (foldM_nested (retain mask ncol i j)) in H.
  set (cand := fun c : Z * Z =>
    if negb ((fst c =? i) && (snd c =? j)) then [fst c * ncol + snd c]
    else []).
  assert (Hn : neighbours ncol nrow rank (i, j)
    = flat_map cand (flat_map (fun cy => map (fun cx => (cy, cx))
        (clip around j ncol)) (clip around i nrow))).
  { now rewrite flat_map_pairs. }
  rewrite Hn.
  apply (foldM_prefix (fun pre st =>
    exists seg, fst st = adj ++ seg /\ snd st = Z.of_nat (length seg) /\
      incl seg (flat_map cand pre)) _) with (pre := []) in H.
  - exact H.
  - clear. intros pre [cy cx] [a k] [a' k'] [seg [Ha [Hk Hi]]] H.
    simpl in *. subst a k. rewrite flat_map_app; simpl.
    rewrite app_nil_r. unfold cand at 2; simpl.
    destruct (negb _).
    + destruct (getitem2 mask cx cy) as [v|]; simpl in H; [|discriminate].
      destruct (v =? 1); injection H as <- <-.
      * exists (seg ++ [cy * ncol + cx]).
        rewrite app_assoc, length_app, Nat2Z.inj_add. simpl.
        repeat split; auto. apply incl_app_app; auto using incl_refl.
      * exists seg. repeat split; auto. now apply incl_appl.
    + injection H as <- <-. exists seg. rewrite app_nil_r. auto.
  - exists []. simpl. rewrite app_nil_r. repeat split. apply incl_nil_l.
Qed.

(** The scan, when it does not raise, yields one count and one segment per
    marked cell, in the order the loops visit the cells; each segment is
    made of neighbours of its cell. *)
Lemma scan_spec ncol nrow rank mask nneigh adj :
  scan ncol nrow rank mask = Ok (nneigh, adj) ->
  exists segs,
    nneigh = map (fun seg => Z.of_nat (length seg)) segs /\
    adj = flat_map (fun seg => seg) segs /\
    Forall2 (fun c seg => incl seg (neighbours ncol nrow rank c))
      (filter (included mask) (cells ncol nrow)) segs.
Proof.
  rewrite scan_cells. intros H.
  apply (foldM_prefix (fun pre st =>
    exists segs,
      fst st = map (fun seg => Z.of_nat (length seg)) segs /\
      snd st = flat_map (fun seg => seg) segs /\
      Forall2 (fun c seg => incl seg (neighbours ncol nrow rank c))
        (filter (included mask) pre) segs) _) with (pre := []) in H.
  - exact H.
  - clear. intros pre [i j] [nn a] [nn' a'] [segs [Hn [Ha HF]]] H.
    simpl in *. subst nn a. rewrite filter_app; simpl.
    unfold included at 2; simpl.
    destruct (getitem2 mask i j) as [v|]; simpl in H; [|discriminate].
    destruct (v =? 1).
    + destruct (scan_neighbours _ _ _ _ _ _ _) as [[a1 n1]|] eqn:E;
        simpl in H; [|discriminate].
      injection H as <- <-.
      apply scan_neighbours_spec in E as [seg [-> [-> Hi]]].
      exists (segs ++ [seg]).
      rewrite map_app, flat_map_app; simpl. rewrite app_nil_r.
      repeat split; auto. apply Forall2_app; auto.
    + injection H as <- <-. exists segs. rewrite app_nil_r. auto.
  - exists []. simpl. repeat split. constructor.
Qed.

(** X3.  When the scan of the masked builder ends without raising, the
    counts it collected add up to the number of neighbour ids it
    collected. *)
Lemma scan_sum_counts ncol nrow rank mask nneigh adj :
  scan ncol nrow rank mask = Ok (nneigh, adj) ->
  sum nneigh = Z.of_nat (length adj).
Proof.
  intros H. apply scan_spec in H as [segs [-> [-> _]]].
  now apply sum_map_lengths.
Qed.

Lemma neighbours_not_self ncol nrow rank i j :
  0 <= j < ncol -> ~ In (i * ncol + j) (neighbours ncol nrow rank (i, j)).
Proof.
  intros Hj H.
  apply In_neighbours in H as [cy [cx [Hb [Hcy [Hcx Hne]]]]].
  assert (cy = i) by nia. subst cy.
  apply Hne. split; [reflexivity|lia].
Qed.

Lemma Forall2_nth_error_l {A B} (R : A -> B -> Prop) l l' p a :
  Forall2 R l l' -> nth_error l p = Some a ->
  exists b, nth_error l' p = Some b /\ R a b.
Proof.
  intros H. revert p. induction H as [|x y l l' Hxy H IH]; intros p Hp.
  - destruct p; discriminate.
  - destruct p as [|p]; simpl in *.
    + injection Hp as <-. eauto.
    + auto.
Qed.

(** X4.  When the scan of the masked builder ends without raising, the
    segment of the [p]-th marked cell does not hold the linear id of that
    cell. *)
Lemma scan_no_self_loop ncol nrow rank mask nneigh adj p c :
  scan ncol nrow rank mask = Ok (nneigh, adj) ->
  nth_error (filter (included mask) (cells ncol nrow)) p = Some c ->
  ~ In (lin ncol c) (segment nneigh adj p).
Proof.
  intros H Hp. apply scan_spec in H as [segs [-> [-> HF]]].
  destruct (Forall2_nth_error_l _ _ _ _ _ HF Hp) as [seg [Hseg Hincl]].
  rewrite (segment_flat_map (fun seg => seg) segs p seg Hseg).
  intros Hin. apply Hincl in Hin.
  apply nth_error_In, filter_In in Hp as [Hc _].
  destruct c as [i j]. apply In_cells in Hc.
  apply (neighbours_not_self ncol nrow rank i j); [lia|exact Hin].
Qed.

(** ** The unconstrained builder: further properties *)

Lemma build_sum_counts_witness :
  0 <= 1 /\
  sum (fst (build 3 3 1)) = Z.of_nat (length (snd (build 3 3 1))).
Proof. split; [lia | apply (build_sum_counts 3 3 1); lia]. Defined.

Lemma scan_sum_counts_witness :
  scan 3 3 1 [[1; 0; 1]; [0; 1; 0]; [1; 0; 1]]
  = Ok ([1; 1; 4; 1; 1], [4; 4; 0; 2; 6; 8; 4; 4]) /\
  sum [1; 1; 4; 1; 1] = Z.of_nat (length [4; 4; 0; 2; 6; 8; 4; 4]).
Proof.
  split; [reflexivity|].
  apply (scan_sum_counts 3 3 1 [[1; 0; 1]; [0; 1; 0]; [1; 0; 1]]).
  reflexivity.
Defined.

Lemma scan_no_self_loop_witness :
  ~ In (lin 3 (1, 1))
      (segment [1; 1; 4; 1; 1] [4; 4; 0; 2; 6; 8; 4; 4] 2).
Proof.
  apply (scan_no_self_loop 3 3 1 [[1; 0; 1]; [0; 1; 0]; [1; 0; 1]]);
    reflexivity.
Defined.

Lemma map_const_repeat {A B} (b : B) (l : list A) :
  map (fun _ => b) l = repeat b (length l).
Proof. induction l; simpl; congruence. Qed.

(** X5.  The unconstrained builder returns one count per cell of the
    grid: [nrow * ncol] of them, none when a dimension is not positive. *)
Theorem build_one_count_per_cell ncol nrow rank :
  length (fst (build ncol nrow rank)) = (Z.to_nat nrow * Z.to_nat ncol)%nat.
Proof. rewrite build_cells; simpl. now rewrite length_map, length_cells. Qed.

(** X6.  A negative rank is not rejected: the unconstrained builder then
    returns the count [-1] for every cell and an empty adjacency list. *)
Theorem build_rank_negative ncol nrow rank :
  rank < 0 ->
  build ncol nrow rank
  = (repeat (-1) (Z.to_nat nrow * Z.to_nat ncol), []).
Proof.
  intros H. rewrite <- (length_cells ncol nrow).
  rewrite <- (map_const_repeat (-1) (cells ncol nrow)).
  rewrite build_cells. f_equal.
  - apply map_ext. intros c. unfold count, clip.
    rewrite arange_empty by lia. reflexivity.
  - rewrite <- (build_negative_rank ncol nrow rank H).
    now rewrite build_cells.
Qed.

Lemma build_rank_negative_witness :
  build 2 2 (-1) = ([-1; -1; -1; -1], []).
Proof. apply (build_rank_negative 2 2 (-1)). lia. Defined.

(** X7.  Every id in the adjacency list of the unconstrained builder is
    the linear id of a cell of the grid: it lies in [[0, nrow * ncol)]. *)
Theorem build_adjacency_in_grid ncol nrow rank b :
  In b (snd (build ncol nrow rank)) -> 0 <= b < nrow * ncol.
Proof.
  rewrite build_cells; simpl. intros H.
  apply in_flat_map in H as [[i j] [Hc Hb]].
  apply In_neighbours in Hb as [cy [cx [-> [[Hcy _] [[Hcx _] _]]]]].
  nia.
Qed.

Lemma build_adjacency_in_grid_witness : 0 <= 5 < 3 * 3.
Proof.
  apply (build_adjacency_in_grid 3 3 1 5). vm_compute. tauto.
Defined.

(** X8.  An empty grid gives empty outputs: when the number of columns or
    of rows is not positive, the unconstrained builder returns no count
    and no adjacency, whatever the rank. *)
Theorem build_empty_grid ncol nrow rank :
  ncol <= 0 \/ nrow <= 0 -> build ncol nrow rank = ([], []).
Proof.
  intros H. rewrite build_cells.
  assert (E : cells ncol nrow = []).
  { apply length_zero_iff_nil. rewrite length_cells. lia. }
  now rewrite E.
Qed.

Lemma build_empty_grid_witness : build (-1) 3 1 = ([], []).
Proof. apply (build_empty_grid (-1) 3 1). left. lia. Defined.

(** *** The size of a clipped window *)

Lemma NoDup_same_length {A} (l l' : list A) :
  NoDup l -> NoDup l' -> (forall x, In x l <-> In x l') ->
  length l = length l'.
Proof.
  intros Hl Hl' H. apply Nat.le_antisymm.
  - apply NoDup_incl_length; [assumption|]. intros x. apply H.
  - apply NoDup_incl_length; [assumption|]. intros x. apply H.
Qed.

Lemma length_clip rank c n :
  0 <= rank -> 0 <= c < n ->
  Z.of_nat (length (clip (arange (- rank) (rank + 1)) c n))
  = Z.min (c + rank) (n - 1) - Z.max (c - rank) 0 + 1.
Proof.
  intros Hr Hc.
  rewrite (NoDup_same_length _
    (arange (Z.max (c - rank) 0) (Z.min (c + rank) (n - 1) + 1))).
  - rewrite length_arange. lia.
  - apply NoDup_clip.
  - apply NoDup_arange.
  - intros v. rewrite In_clip, In_arange. lia.
Qed.

Lemma count_formula ncol nrow rank i j :
  0 <= rank -> 0 <= i < nrow -> 0 <= j < ncol ->
  count ncol nrow rank (i, j)
  = (Z.min (i + rank) (nrow - 1) - Z.max (i - rank) 0 + 1)
    * (Z.min (j + rank) (ncol - 1) - Z.max (j - rank) 0 + 1) - 1.
Proof.
  intros Hr Hi Hj. unfold count; simpl.
  now rewrite !length_clip by assumption.
Qed.

(** X9.  For a rank that is not negative, the count of the cell in row
    [i] and column [j] is the size of its window clipped to the grid,
    minus one: the rows from [max (i - rank) 0] to [min (i + rank)
    (nrow - 1)] times the columns from [max (j - rank) 0] to
    [min (j + rank) (ncol - 1)]. *)
Theorem cell_count_formula ncol nrow rank i j :
  0 <= rank -> 0 <= i < nrow -> 0 <= j < ncol ->
  cell_count ncol nrow rank (Z.to_nat (i * ncol + j))
  = (Z.min (i + rank) (nrow - 1) - Z.max (i - rank) 0 + 1)
    * (Z.min (j + rank) (ncol - 1) - Z.max (j - rank) 0 + 1) - 1.
Proof.
  intros Hr Hi Hj.
  rewrite (cell_count_at _ _ _ _ (i, j)) by (apply nth_error_cells; lia).
  now apply count_formula.
Qed.

Lemma cell_count_formula_witness :
  cell_count 5 4 2 (Z.to_nat (1 * 5 + 4))
  = (Z.min (1 + 2) (4 - 1) - Z.max (1 - 2) 0 + 1)
    * (Z.min (4 + 2) (5 - 1) - Z.max (4 - 2) 0 + 1) - 1.
Proof. apply (cell_count_formula 5 4 2 1 4); lia. Defined.

(** X10.  When the rank reaches both [nrow - 1] and [ncol - 1], every
    cell has all the other cells of the grid as neighbours: its count is
    [nrow * ncol - 1]. *)
Theorem cell_count_saturated ncol nrow rank i j :
  nrow - 1 <= rank -> ncol - 1 <= rank ->
  0 <= i < nrow -> 0 <= j < ncol ->
  cell_count ncol nrow rank (Z.to_nat (i * ncol + j)) = nrow * ncol - 1.
Proof.
  intros Hn Hm Hi Hj.
  rewrite (cell_count_at _ _ _ _ (i, j)) by (apply nth_error_cells; lia).
  rewrite count_formula by lia.
  replace (Z.min (i + rank) (nrow - 1)) with (nrow - 1) by lia.
  replace (Z.min (j + rank) (ncol - 1)) with (ncol - 1) by lia.
  replace (Z.max (i - rank) 0) with 0 by lia.
  replace (Z.max (j - rank) 0) with 0 by lia.
  ring.
Qed.

Lemma cell_count_saturated_witness :
  cell_count 2 3 7 (Z.to_nat (2 * 2 + 1)) = 3 * 2 - 1.
Proof. apply (cell_count_saturated 2 3 7 2 1); lia. Defined.

Lemma flat_map_nil {A B} (g : A -> list B) (l : list A) :
  (forall x, In x l -> g x = []) -> flat_map g l = [].
Proof.
  induction l as [|x l IH]; intros H; simpl; [reflexivity|].
  rewrite (H x), IH; auto using in_eq, in_cons.
Qed.

(** At rank 0 no cell has a neighbour: the unconstrained builder
    returns the count 0 for every cell and an empty adjacency list. *)
Theorem build_rank_zero ncol nrow :
  build ncol nrow 0 = (repeat 0 (Z.to_nat nrow * Z.to_nat ncol), []).
Proof.
  rewrite <- (length_cells ncol nrow).
  rewrite <- (map_const_repeat 0 (cells ncol nrow)).
  rewrite build_cells.
  assert (H : forall c, In c (cells ncol nrow) -> count ncol nrow 0 c = 0).
  { intros [i j] Hin. apply In_cells in Hin.
    rewrite count_formula by lia.
    replace (Z.min (i + 0) (nrow - 1) - Z.max (i - 0) 0 + 1) with 1 by lia.
    replace (Z.min (j + 0) (ncol - 1) - Z.max (j - 0) 0 + 1) with 1 by lia.
    reflexivity. }
  f_equal.
  - now apply map_ext_in.
  - apply flat_map_nil. intros [i j] Hin.
    apply length_zero_iff_nil.
    pose proof (H _ Hin) as H0. apply In_cells in Hin.
    rewrite count_neighbours in H0 by lia. lia.
Qed.

(** X11.  For a rank that is not negative, two cells of the grid are
    adjacent exactly when they differ and lie within [rank] rows and
    [rank] columns of each other (the king's move at rank 1). *)
Theorem king_move_adjacency ncol nrow rank i j i' j' :
  0 <= rank ->
  0 <= i < nrow -> 0 <= j < ncol -> 0 <= i' < nrow -> 0 <= j' < ncol ->
  In (i' * ncol + j') (cell_segment ncol nrow rank (Z.to_nat (i * ncol + j)))
  <-> (i', j') <> (i, j) /\ Z.abs (i' - i) <= rank /\ Z.abs (j' - j) <= rank.
Proof.
  intros Hr Hi Hj Hi' Hj'.
  rewrite (cell_segment_at _ _ _ _ (i, j)) by
    (try apply nth_error_cells; lia).
  rewrite In_neighbours. split.
  - intros [cy [cx [E [Hcy [Hcx Hne]]]]].
    assert (cy = i') by nia. subst cy.
    assert (cx = j') by lia. subst cx.
    split; [|lia]. intros Heq. injection Heq as -> ->. now apply Hne.
  - intros [Hne [Hy Hx]]. exists i', j'.
    repeat split; try lia.
    intros [-> ->]. now apply Hne.
Qed.

Lemma king_move_adjacency_witness :
  In (2 * 4 + 3) (cell_segment 4 3 1 (Z.to_nat (1 * 4 + 2)))
  <-> (2, 3) <> (1, 2) /\ Z.abs (2 - 1) <= 1 /\ Z.abs (3 - 2) <= 1.
Proof. apply (king_move_adjacency 4 3 1 1 2 2 3); lia. Defined.

(** *** The order of the neighbours *)

Lemma StronglySorted_app {A} (R : A -> A -> Prop) l1 l2 :
  StronglySorted R l1 -> StronglySorted R l2 ->
  (forall u v, In u l1 -> In v l2 -> R u v) ->
  StronglySorted R (l1 ++ l2).
Proof.
  intros H1 H2 H. induction H1 as [|x l1 H1 IH Hx]; simpl; [assumption|].
  constructor.
  - apply IH. intros u v Hu Hv. apply H; auto using in_cons.
  - apply Forall_app. split; [assumption|].
    apply Forall_forall. intros v Hv. apply H; auto using in_eq.
Qed.

Lemma StronglySorted_flat_map {A B} (R : A -> A -> Prop)
  (R' : B -> B -> Prop) (g : A -> list B) l :
  StronglySorted R l ->
  (forall x, In x l -> StronglySorted R' (g x)) ->
  (forall x y u v, In x l -> In y l -> R x y ->
     In u (g x) -> In v (g y) -> R' u v) ->
  StronglySorted R' (flat_map g l).
Proof.
  intros H. induction H as [|x l H IH Hx]; intros Hg Hc; simpl.
  - constructor.
  - apply StronglySorted_app.
    + apply Hg, in_eq.
    + apply IH.
      * intros y Hy. apply Hg. now apply in_cons.
      * intros y z u v Hy Hz. apply Hc; now apply in_cons.
    + intros u v Hu Hv. apply in_flat_map in Hv as [y [Hy Hv]].
      rewrite Forall_forall in Hx.
      apply (Hc x y); auto using in_eq, in_cons.
Qed.

Lemma StronglySorted_map {A B} (R : A -> A -> Prop) (R' : B -> B -> Prop)
  (f : A -> B) l :
  (forall x y, R x y -> R' (f x) (f y)) ->
  StronglySorted R l -> StronglySorted R' (map f l).
Proof.
  intros Hf H. induction H as [|x l H IH Hx]; simpl; constructor; auto.
  apply Forall_map. eapply Forall_impl; [|exact Hx]. auto.
Qed.

Lemma StronglySorted_filter {A} (R : A -> A -> Prop) (p : A -> bool) l :
  StronglySorted R l -> StronglySorted R (filter p l).
Proof.
  intros H. induction H as [|x l H IH Hx]; simpl; [constructor|].
  destruct (p x); [|assumption]. constructor; [assumption|].
  rewrite Forall_forall in *. intros y Hy. apply Hx.
  now apply filter_In in Hy.
Qed.

Lemma StronglySorted_seq a n : StronglySorted lt (seq a n).
Proof.
  revert a. induction n as [|n IH]; intros a; simpl; constructor; auto.
  apply Forall_forall. intros x Hx. apply in_seq in Hx. lia.
Qed.

Lemma StronglySorted_clip around c n :
  StronglySorted Z.lt around -> StronglySorted Z.lt (clip around c n).
Proof.
  intros H. unfold clip. apply StronglySorted_filter.
  apply (StronglySorted_map Z.lt); [|assumption]. intros x y. lia.
Qed.

Lemma StronglySorted_arange a b : StronglySorted Z.lt (arange a b).
Proof.
  unfold arange. apply (StronglySorted_map lt); [|apply StronglySorted_seq].
  intros x y. lia.
Qed.

Lemma StronglySorted_neighbours ncol nrow rank c :
  StronglySorted Z.lt (neighbours ncol nrow rank c).
Proof.
  unfold neighbours.
  apply (StronglySorted_flat_map Z.lt).
  - apply StronglySorted_clip, StronglySorted_arange.
  - intros cy _. apply (StronglySorted_flat_map Z.lt).
    + apply StronglySorted_clip, StronglySorted_arange.
    + intros cx _. destruct (negb _); repeat constructor.
    + intros x y u v _ _ Hxy Hu Hv.
      destruct (negb _); [|destruct Hu].
      destruct (negb _); [|destruct Hv].
      destruct Hu as [<-|[]], Hv as [<-|[]]. lia.
  - intros cy cy' u v _ _ Hlt Hu Hv.
    apply in_flat_map in Hu as [cx [Hcx Hu]].
    apply in_flat_map in Hv as [cx' [Hcx' Hv]].
    apply In_clip in Hcx, Hcx'.
    destruct (negb _); [|destruct Hu].
    destruct (negb _); [|destruct Hv].
    destruct Hu as [<-|[]], Hv as [<-|[]]. nia.
Qed.

(** X12.  The neighbours of a cell are listed in strictly increasing
    order of linear id, so none is listed twice; this holds for every
    grid, rank and position. *)
Theorem cell_segment_increasing ncol nrow rank a :
  StronglySorted Z.lt (cell_segment ncol nrow rank a).
Proof.
  destruct (cell_segment ncol nrow rank a) as [|b l] eqn:E; [constructor|].
  assert (H : In b (cell_segment ncol nrow rank a))
    by (rewrite E; apply in_eq).
  destruct (cell_segment_inhabited _ _ _ _ _ H) as [Hr [i [j Hc]]].
  rewrite <- E, (cell_segment_at _ _ _ _ _ Hr Hc).
  apply StronglySorted_neighbours.
Qed.

(** ** The masked builder: what the scan collects *)

Lemma scan_neighbours_eq mask ncol nrow rank i j adj adj' n :
  let around := arange (- rank) (rank + 1) in
  scan_neighbours mask ncol i j (clip around i nrow) (clip around j ncol) adj
  = Ok (adj', n) ->
  adj' = adj ++ retained mask ncol nrow rank (i, j) /\
  n = Z.of_nat (length (retained mask ncol nrow rank (i, j))).
Proof.
  intros around H. unfold scan_neighbours in H.
  rewrite (foldM_nested (retain mask ncol i j)) in H.
  set (cand := fun c : Z * Z =>
    if negb ((fst c =? i) && (snd c =? j)) && included mask (snd c, fst c)
    then [fst c * ncol + snd c] else []).
  assert (Hn : retained mask ncol nrow rank (i, j)
    = flat_map cand (flat_map (fun cy => map (fun cx => (cy, cx))
        (clip around j ncol)) (clip around i nrow))).
  { now rewrite flat_map_pairs. }
  rewrite Hn.
  apply (foldM_prefix (fun pre st =>
    fst st = adj ++ flat_map cand pre /\
    snd st = Z.of_nat (length (flat_map cand pre))) _) with (pre := []) in H.
  - exact H.
  - clear. intros pre [cy cx] [a k] [a' k'] [Ha Hk] H.
    simpl in *. subst a k. rewrite flat_map_app; simpl.
    rewrite app_nil_r. unfold cand at 2 4, included; simpl.
    destruct (negb _); simpl.
    + destruct (getitem2 mask cx cy) as [v|]; simpl in H; [|discriminate].
      destruct (v =? 1); injection H as <- <-.
      * rewrite app_assoc, length_app, Nat2Z.inj_add. simpl. auto.
      * rewrite !app_nil_r. auto.
    + injection H as <- <-. rewrite !app_nil_r. auto.
  - simpl. rewrite app_nil_r. auto.
Qed.

(** When the scan does not raise, it has collected, for each marked cell
    in turn, the candidates it retains and their number. *)
Lemma scan_eq ncol nrow rank mask nneigh adj :
  scan ncol nrow rank mask = Ok (nneigh, adj) ->
  nneigh = map (fun c => Z.of_nat (length (retained mask ncol nrow rank c)))
             (marked mask ncol nrow) /\
  adj = flat_map (retained mask ncol nrow rank) (marked mask ncol nrow).
Proof.
  rewrite scan_cells. intros H. unfold marked.
  apply (foldM_prefix (fun pre st =>
    fst st = map (fun c => Z.of_nat (length (retained mask ncol nrow rank c)))
               (filter (included mask) pre) /\
    snd st = flat_map (retained mask ncol nrow rank)
               (filter (included mask) pre)) _) with (pre := []) in H.
  - exact H.
  - clear. intros pre [i j] [nn a] [nn' a'] [Hn Ha] H.
    simpl in *. subst nn a. rewrite filter_app; simpl.
    unfold included at 2 4; simpl.
    destruct (getitem2 mask i j) as [v|]; simpl in H; [|discriminate].
    destruct (v =? 1).
    + destruct (scan_neighbours _ _ _ _ _ _ _) as [[a1 n1]|] eqn:E;
        simpl in H; [|discriminate].
      injection H as <- <-.
      apply scan_neighbours_eq in E as [-> ->].
      rewrite map_app, flat_map_app; simpl. now rewrite app_nil_r.
    + injection H as <- <-. rewrite app_nil_r. auto.
  - simpl. auto.
Qed.

Lemma In_retained mask ncol nrow rank i j b :
  In b (retained mask ncol nrow rank (i, j)) <->
  exists cy cx,
    b = cy * ncol + cx /\
    (0 <= cy < nrow /\ - rank <= cy - i <= rank) /\
    (0 <= cx < ncol /\ - rank <= cx - j <= rank) /\
    ~ (cy = i /\ cx = j) /\
    included mask (cx, cy) = true.
Proof.
  unfold retained; simpl. rewrite in_flat_map. split.
  - intros [cy [Hcy Hb]]. apply in_flat_map in Hb as [cx [Hcx Hb]].
    exists cy, cx. apply In_clip in Hcy, Hcx.
    destruct (included mask (cx, cy));
      [|rewrite andb_false_r in Hb; destruct Hb].
    rewrite andb_true_r in Hb.
    destruct (Z.eqb_spec cy i), (Z.eqb_spec cx j); simpl in Hb;
      try destruct Hb as [<-|[]]; try contradiction; repeat split; lia.
  - intros [cy [cx [-> [Hcy [Hcx [Hne Hm]]]]]].
    exists cy. split; [now apply In_clip|].
    apply in_flat_map. exists cx. split; [now apply In_clip|].
    rewrite Hm, andb_true_r.
    destruct (Z.eqb_spec cy i), (Z.eqb_spec cx j); simpl; auto.
Qed.

(** X13.  When the scan of the masked builder ends without raising, the
    segment of the marked cell [(i, j)] holds the id [cy * ncol + cx] of
    a candidate of its window exactly when the candidate is not the cell
    itself and the entry of the mask at row [cx] and column [cy], the
    transposed position, is 1. *)
Theorem scan_segment_reads_transposed ncol nrow rank mask nneigh adj p i j b :
  scan ncol nrow rank mask = Ok (nneigh, adj) ->
  nth_error (marked mask ncol nrow) p = Some (i, j) ->
  In b (segment nneigh adj p) <->
  exists cy cx,
    b = cy * ncol + cx /\
    (0 <= cy < nrow /\ - rank <= cy - i <= rank) /\
    (0 <= cx < ncol /\ - rank <= cx - j <= rank) /\
    ~ (cy = i /\ cx = j) /\
    included mask (cx, cy) = true.
Proof.
  intros H Hp. apply scan_eq in H as [-> ->].
  rewrite (segment_flat_map _ _ _ _ Hp). apply In_retained.
Qed.

Lemma scan_segment_reads_transposed_witness :
  In 2 (segment [1; 2] [2; 0; 2] 0) <->
  exists cy cx,
    2 = cy * 2 + cx /\
    (0 <= cy < 2 /\ - 1 <= cy - 0 <= 1) /\
    (0 <= cx < 2 /\ - 1 <= cx - 0 <= 1) /\
    ~ (cy = 0 /\ cx = 0) /\
    included [[1; 1]; [0; 0]] (cx, cy) = true.
Proof.
  apply (scan_segment_reads_transposed 2 2 1 [[1; 1]; [0; 0]] [1; 2]
           [2; 0; 2] 0 0 0 2); reflexivity.
Defined.

(** ** The masked builder: reads of the mask *)

Lemma axis_index_in n k :
  0 <= k < Z.of_nat n -> axis_index n k = Ok (Z.to_nat k).
Proof.
  intros H. unfold axis_index.
  destruct (Z.ltb_spec k 0); [lia|].
  destruct (Z.leb_spec 0 k); [|lia].
  destruct (Z.ltb_spec k (Z.of_nat n)); [|lia]. reflexivity.
Qed.

Lemma axis_index_beyond n k :
  Z.of_nat n <= k -> axis_index n k = Raise IndexError.
Proof.
  intros H. unfold axis_index.
  destruct (Z.ltb_spec k 0); [lia|].
  destruct (Z.ltb_spec k (Z.of_nat n)); [lia|].
  now rewrite andb_false_r.
Qed.

Lemma axis_index_raise n k e : axis_index n k = Raise e -> e = IndexError.
Proof.
  unfold axis_index. destruct (_ && _); intros H; [discriminate|].
  now injection H.
Qed.

Lemma getitem2_raise m a b e : getitem2 m a b = Raise e -> e = IndexError.
Proof.
  unfold getitem2.
  destruct (axis_index (length m) a) as [a'|e1] eqn:Ea; simpl.
  - destruct (axis_index (length (nth a' m [])) b) as [b'|e2] eqn:Eb; simpl;
      intros H; [discriminate|].
    injection H as <-. eapply axis_index_raise; eauto.
  - intros H. injection H as <-. eapply axis_index_raise; eauto.
Qed.

Lemma shape_row nrow ncol m a :
  shape nrow ncol m -> 0 <= a < nrow ->
  Z.of_nat (length (nth (Z.to_nat a) m [])) = ncol.
Proof.
  intros [Hl HF] Ha. rewrite Forall_forall in HF.
  apply HF, nth_In. lia.
Qed.

(** Within an array of the shape of the grid, a read at a position of the
    grid succeeds. *)
Lemma getitem2_shape nrow ncol m a b :
  shape nrow ncol m -> 0 <= a < nrow -> 0 <= b < ncol ->
  getitem2 m a b = Ok (nth (Z.to_nat b) (nth (Z.to_nat a) m []) 0).
Proof.
  intros Hs Ha Hb. unfold getitem2.
  rewrite axis_index_in by (destruct Hs; lia). simpl.
  rewrite axis_index_in by (rewrite (shape_row nrow ncol); auto).
  reflexivity.
Qed.

Lemma foldM_total {S A} (f : S -> A -> result S) l :
  (forall s a, In a l -> exists s', f s a = Ok s') ->
  forall s, exists s', foldM f l s = Ok s'.
Proof.
  induction l as [|x l IH]; intros H s; simpl; [eauto|].
  destruct (H s x (in_eq _ _)) as [s1 E]. rewrite E. simpl.
  apply IH. intros s2 a Ha. apply H. now apply in_cons.
Qed.

Lemma foldM_raise {S A} (f : S -> A -> result S) (P : exn -> Prop) l :
  (forall s a e, f s a = Raise e -> P e) ->
  forall s e, foldM f l s = Raise e -> P e.
Proof.
  intros Hf. induction l as [|x l IH]; intros s e H; simpl in H;
    [discriminate|].
  destruct (f s x) as [s1|e1] eqn:E; simpl in H; [eauto|].
  injection H as <-. eauto.
Qed.

Lemma foldM_Ok_In {S A} (f : S -> A -> result S) l s s' a :
  foldM f l s = Ok s' -> In a l -> exists s1 s2, f s1 a = Ok s2.
Proof.
  revert s. induction l as [|x l IH]; intros s H Hin; [destruct Hin|].
  simpl in H. destruct (f s x) as [s1|e1] eqn:E; simpl in H; [|discriminate].
  destruct Hin as [->|Hin]; eauto.
Qed.

Lemma retain_raise mask ncol i j st cand e :
  retain mask ncol i j st cand = Raise e -> e = IndexError.
Proof.
  unfold retain. destruct st as [adj k], cand as [cy cx].
  destruct (negb _); [|discriminate].
  destruct (getitem2 mask cx cy) as [v|e1] eqn:E; simpl.
  - destruct (v =? 1); discriminate.
  - intros H. injection H as <-. eapply getitem2_raise; eauto.
Qed.

Lemma scan_cell_raise mask ncol nrow around st c e :
  scan_cell mask ncol nrow around st c = Raise e -> e = IndexError.
Proof.
  unfold scan_cell. destruct st as [nneigh adj], c as [i j].
  destruct (getitem2 mask i j) as [v|e1] eqn:E; simpl.
  - destruct (v =? 1); [|discriminate].
    destruct (scan_neighbours _ _ _ _ _ _ _) as [[a n]|e2] eqn:E2; simpl;
      [discriminate|].
    intros H. injection H as <-.
    unfold scan_neighbours in E2.
    rewrite (foldM_nested (retain mask ncol i j)) in E2.
    eapply (foldM_raise _ (fun e => e = IndexError)) in E2; [exact E2|].
    intros s a e. apply retain_raise.
  - intros H. injection H as <-. eapply getitem2_raise; eauto.
Qed.

(** X14.  Whatever the mask, the only exception the scan of the masked
    builder can raise is [IndexError], from a read of the mask outside
    its bounds. *)
Theorem scan_raises_only_IndexError ncol nrow rank mask e :
  scan ncol nrow rank mask = Raise e -> e = IndexError.
Proof.
  rewrite scan_cells. intros H.
  eapply (foldM_raise _ (fun e => e = IndexError)) in H; [exact H|].
  intros s a e'. apply scan_cell_raise.
Qed.

Lemma scan_raises_only_IndexError_witness :
  exists e, scan 2 1 1 [[1; 1]] = Raise e /\ e = IndexError.
Proof.
  exists IndexError. split; [reflexivity|].
  apply (scan_raises_only_IndexError 2 1 1 [[1; 1]]). reflexivity.
Defined.

(** X15.  On a square grid whose mask has the shape of the grid, the scan
    of the masked builder never raises: the transposed reads stay inside
    the mask. *)
Theorem scan_square_total n rank mask :
  shape n n mask ->
  exists nneigh adj, scan n n rank mask = Ok (nneigh, adj).
Proof.
  intros Hs. rewrite scan_cells.
  destruct (foldM_total
    (scan_cell mask n n (arange (- rank) (rank + 1))) (cells n n))
    with (s := (@nil Z, @nil Z)) as [[nn a] E]; [|eauto].
  intros [nn a] [i j] Hin. apply In_cells in Hin. unfold scan_cell.
  rewrite (getitem2_shape n n) by (auto; lia). simpl.
  destruct (_ =? 1); [|eauto].
  unfold scan_neighbours.
  rewrite (foldM_nested (retain mask n i j)).
  match goal with
  | |- context [foldM ?f ?l ?s0] =>
      assert (Hstep : forall s a, In a l -> exists s', f s a = Ok s');
      [|destruct (foldM_total f l Hstep s0) as [[a' k] E]]
  end.
  - intros [a1 k1] [cy cx] Hc.
    apply in_flat_map in Hc as [cy' [Hcy Hc]].
    apply in_map_iff in Hc as [cx' [Heq Hcx]].
    injection Heq as <- <-. apply In_clip in Hcy, Hcx.
    unfold retain. destruct (negb _); [|eauto].
    rewrite (getitem2_shape n n) by (auto; lia). simpl.
    destruct (_ =? 1); eauto.
  - rewrite E. simpl. eauto.
Qed.

Lemma scan_square_total_witness :
  exists nneigh adj,
    scan 2 2 1 [[1; 1]; [0; 0]] = Ok (nneigh, adj).
Proof.
  apply (scan_square_total 2 1 [[1; 1]; [0; 0]]).
  split; [reflexivity|]. repeat constructor.
Defined.

(** X16.  On a grid with more columns than rows, the scan of the masked
    builder raises [IndexError] as soon as the mask marks a cell whose
    right-hand neighbour lies in a column [j + 1 >= nrow]: the code reads
    that neighbour at row [j + 1] of the mask. *)
Theorem scan_wide_grid_raises ncol nrow rank mask i j :
  shape nrow ncol mask -> 1 <= rank ->
  0 <= i < nrow -> nrow <= j + 1 < ncol ->
  included mask (i, j) = true ->
  scan ncol nrow rank mask = Raise IndexError.
Proof.
  intros Hs Hr Hi Hj Hm.
  destruct (scan ncol nrow rank mask) as [[nn a]|e] eqn:E.
  - exfalso. rewrite scan_cells in E.
    destruct (foldM_Ok_In _ _ _ _ (i, j) E) as [[nn1 a1] [st2 Hc]];
      [apply In_cells; lia|].
    unfold scan_cell in Hc. unfold included in Hm; simpl in Hm.
    destruct (getitem2 mask i j) as [v|]; [|discriminate].
    simpl in Hc. rewrite Hm in Hc.
    destruct (scan_neighbours _ _ _ _ _ _ _) as [[a' k]|] eqn:E2;
      [|discriminate].
    unfold scan_neighbours in E2.
    rewrite (foldM_nested (retain mask ncol i j)) in E2.
    destruct (foldM_Ok_In _ _ _ _ (i, j + 1) E2) as [[a2 k2] [st3 Hrt]].
    { apply in_flat_map. exists i. split; [apply In_clip; lia|].
      apply in_map_iff. exists (j + 1). split; [reflexivity|].
      apply In_clip. lia. }
    unfold retain in Hrt.
    replace (j + 1 =? j) with false in Hrt by (symmetry; apply Z.eqb_neq; lia).
    rewrite andb_false_r in Hrt. simpl in Hrt.
    unfold getitem2 in Hrt.
    rewrite axis_index_beyond in Hrt by (destruct Hs; lia).
    discriminate.
  - f_equal. rewrite scan_cells in E.
    eapply (foldM_raise _ (fun e => e = IndexError)) in E; [exact E|].
    intros s c e'. apply scan_cell_raise.
Qed.

Lemma scan_wide_grid_raises_witness :
  scan 3 2 1 [[0; 1; 0]; [0; 0; 0]] = Raise IndexError.
Proof.
  apply (scan_wide_grid_raises 3 2 1 [[0; 1; 0]; [0; 0; 0]] 0 1);
    try lia; try reflexivity.
  split; [reflexivity|]. repeat constructor.
Defined.

(** ** The masked builder: the marked cells and the result *)

Lemma length_where_row y x row :
  length (where_row y x row) = length (filter (fun v => v =? 1) row).
Proof.
  revert x. induction row as [|v row IH]; intros x; simpl; [reflexivity|].
  destruct (v =? 1); simpl; now rewrite IH.
Qed.

Lemma length_where_rows y m : length (where_rows y m) = count_ones m.
Proof.
  unfold count_ones. revert y.
  induction m as [|row m IH]; intros y; simpl; [reflexivity|].
  now rewrite length_app, filter_app, length_app, length_where_row, IH.
Qed.

Lemma elems_cell_in ncol mask :
  elems (cell_in_of ncol mask) = map (lin ncol) (where_rows 0 mask).
Proof.
  unfold cell_in_of, where_eq1.
  destruct (split (where_rows 0 mask)) as [ys xs] eqn:E. simpl.
  apply split_combine in E. rewrite E.
  apply map_ext. now intros [y x].
Qed.

(** Line 160 on a numpy array: nothing to translate, or no [index]. *)
Lemma build_ctry_cases ncol nrow rank mask :
  build_ctry ncol nrow rank mask
  = rbind (scan ncol nrow rank mask) (fun '(nneigh, adj) =>
      match adj with
      | [] => Ok (nneigh, [], elems (cell_in_of ncol mask))
      | _ :: _ => Raise AttributeError
      end).
Proof.
  unfold build_ctry.
  destruct (scan ncol nrow rank mask) as [[nn a]|e]; simpl; [|reflexivity].
  unfold cell_in_of. destruct (where_eq1 mask) as [ys xs].
  destruct a; reflexivity.
Qed.

Lemma flat_map_nil_inv {A B} (g : A -> list B) (l : list A) :
  flat_map g l = [] -> forall x, In x l -> g x = [].
Proof.
  induction l as [|y l IH]; intros H x Hx; [destruct Hx|].
  simpl in H. apply app_eq_nil in H as [Hy Hl].
  destruct Hx as [<-|Hx]; auto.
Qed.

(** X17.  [cell_in] has one entry per entry of the mask equal to 1,
    whatever the shape of the mask. *)
Theorem cell_in_length ncol mask :
  length (elems (cell_in_of ncol mask)) = count_ones mask.
Proof. now rewrite elems_cell_in, length_map, length_where_rows. Qed.

(** X18.  As soon as the scan has retained one neighbour, the masked
    builder raises [AttributeError]: line 160 calls [index] on [cell_in],
    a numpy array, which has no such method. *)
Theorem build_ctry_raises_AttributeError ncol nrow rank mask nneigh adj :
  scan ncol nrow rank mask = Ok (nneigh, adj) -> adj <> [] ->
  build_ctry ncol nrow rank mask = Raise AttributeError.
Proof.
  intros H Hne. rewrite build_ctry_cases, H. simpl.
  destruct adj; [contradiction|reflexivity].
Qed.

Lemma build_ctry_raises_AttributeError_witness :
  build_ctry 3 3 1 [[1; 0; 1]; [0; 1; 0]; [1; 0; 1]] = Raise AttributeError.
Proof.
  apply (build_ctry_raises_AttributeError 3 3 1
           [[1; 0; 1]; [0; 1; 0]; [1; 0; 1]]
           [1; 1; 4; 1; 1] [4; 4; 0; 2; 6; 8; 4; 4]);
    [reflexivity|discriminate].
Defined.

(** X19.  Whenever the masked builder returns, no marked cell had a
    retained neighbour: the adjacency it returns is empty, every count is
    0, and [cell_in] has one entry per entry of the mask equal to 1. *)
Theorem build_ctry_returns_isolated ncol nrow rank mask nneigh adj_rank
  cell_in :
  build_ctry ncol nrow rank mask = Ok (nneigh, adj_rank, cell_in) ->
  adj_rank = [] /\ Forall (fun n => n = 0) nneigh /\
  length cell_in = count_ones mask.
Proof.
  rewrite build_ctry_cases. intros H.
  destruct (scan ncol nrow rank mask) as [[nn a]|e] eqn:E; simpl in H;
    [|discriminate].
  destruct a; [|discriminate]. injection H as <- <- <-.
  split; [reflexivity|]. split.
  - apply scan_eq in E as [-> Ha]. symmetry in Ha.
    apply Forall_forall. intros x Hx.
    apply in_map_iff in Hx as [c [<- Hc]].
    now rewrite (flat_map_nil_inv _ _ Ha c Hc).
  - now rewrite elems_cell_in, length_map, length_where_rows.
Qed.

Lemma build_ctry_returns_isolated_witness :
  @nil Z = [] /\ Forall (fun n => n = 0) [0; 0; 0; 0] /\
  length [0; 2; 6; 8] = count_ones [[1; 0; 1]; [0; 0; 0]; [1; 0; 1]].
Proof.
  apply (build_ctry_returns_isolated 3 3 1
           [[1; 0; 1]; [0; 0; 0]; [1; 0; 1]]).
  reflexivity.
Defined.

(** X20.  With a mask of the shape of the grid that marks no cell, the
    masked builder returns three empty sequences. *)
Theorem build_ctry_no_marked_cell ncol nrow rank mask :
  shape nrow ncol mask -> count_ones mask = 0%nat ->
  build_ctry ncol nrow rank mask = Ok ([], [], []).
Proof.
  intros Hs H0. rewrite build_ctry_cases.
  assert (Hone : forall v, In v (concat mask) -> (v =? 1) = false).
  { intros v Hv. destruct (v =? 1) eqn:E; [|reflexivity]. exfalso.
    unfold count_ones in H0. apply length_zero_iff_nil in H0.
    assert (Hin : In v (filter (fun v => v =? 1) (concat mask)))
      by (apply filter_In; auto).
    rewrite H0 in Hin. destruct Hin. }
  assert (Hscan : scan ncol nrow rank mask = Ok ([], [])).
  { rewrite scan_cells. apply foldM_idle.
    intros [i j] Hin. apply In_cells in Hin. destruct Hin as [Hi Hj].
    unfold scan_cell.
    rewrite (getitem2_shape nrow ncol) by assumption. simpl.
    rewrite Hone; [reflexivity|].
    apply in_concat. exists (nth (Z.to_nat i) mask []).
    pose proof (shape_row nrow ncol mask i Hs Hi) as Hrow.
    split; apply nth_In; destruct Hs; lia. }
  rewrite Hscan. simpl.
  replace (elems (cell_in_of ncol mask)) with (@nil Z); [reflexivity|].
  symmetry. apply length_zero_iff_nil.
  now rewrite elems_cell_in, length_map, length_where_rows.
Qed.

Lemma build_ctry_no_marked_cell_witness :
  build_ctry 3 2 1 [[0; 0; 0]; [0; 2; 0]] = Ok ([], [], []).
Proof.
  apply (build_ctry_no_marked_cell 3 2 1 [[0; 0; 0]; [0; 2; 0]]);
    [|reflexivity].
  split; [reflexivity|]. repeat constructor.
Defined.

(** *** [np.where] against the loops *)

Lemma arange_cons a b : a < b -> arange a b = a :: arange (a + 1) b.
Proof.
  intros H. unfold arange.
  replace (Z.to_nat (b - a)) with (S (Z.to_nat (b - (a + 1)))) by lia.
  simpl. f_equal; [lia|].
  rewrite <- seq_shift, map_map. apply map_ext. intros k. lia.
Qed.

Lemma where_row_spec row : forall y x,
  where_row y x row
  = filter (fun c => nth (Z.to_nat (snd c - x)) row 0 =? 1)
      (map (fun j => (y, j)) (arange x (x + Z.of_nat (length row)))).
Proof.
  induction row as [|v row IH]; intros y x.
  - rewrite arange_empty by (simpl; lia). reflexivity.
  - rewrite arange_cons by (simpl length; lia).
    cbn [map filter snd where_row].
    replace (Z.to_nat (x - x)) with 0%nat by lia. cbn [nth].
    replace (x + Z.of_nat (length (v :: row)))
      with (x + 1 + Z.of_nat (length row)) by (simpl length; lia).
    assert (E : filter (fun c => nth (Z.to_nat (snd c - x)) (v :: row) 0 =? 1)
                  (map (fun j => (y, j))
                     (arange (x + 1) (x + 1 + Z.of_nat (length row))))
                = where_row y (x + 1) row).
    { rewrite IH. apply filter_ext_in. intros c Hc.
      apply in_map_iff in Hc as [j [<- Hj]]. apply In_arange in Hj. simpl.
      replace (Z.to_nat (j - x)) with (S (Z.to_nat (j - (x + 1)))) by lia.
      reflexivity. }
    destruct (v =? 1); [f_equal|]; symmetry; exact E.
Qed.

Lemma where_rows_spec ncol m : forall y,
  Forall (fun row => Z.of_nat (length row) = ncol) m ->
  where_rows y m
  = filter (fun c =>
              nth (Z.to_nat (snd c)) (nth (Z.to_nat (fst c - y)) m []) 0 =? 1)
      (flat_map (fun i => map (fun j => (i, j)) (range ncol))
         (arange y (y + Z.of_nat (length m)))).
Proof.
  induction m as [|row m IH]; intros y HF.
  - rewrite arange_empty by (simpl; lia). reflexivity.
  - inversion HF as [|? ? Hrow HF']; subst.
    rewrite arange_cons by (simpl length; lia).
    cbn [flat_map where_rows]. rewrite filter_app. f_equal.
    + rewrite where_row_spec. unfold range.
      replace (0 + Z.of_nat (length row)) with (Z.of_nat (length row)) by lia.
      apply filter_ext_in. intros c Hc.
      apply in_map_iff in Hc as [j [<- Hj]]. simpl.
      replace (Z.to_nat (y - y)) with 0%nat by lia.
      replace (j - 0) with j by lia. reflexivity.
    + replace (y + Z.of_nat (length (row :: m)))
        with (y + 1 + Z.of_nat (length m)) by (simpl length; lia).
      rewrite IH by assumption. apply filter_ext_in. intros c Hc.
      apply in_flat_map in Hc as [i [Hi Hc]].
      apply in_map_iff in Hc as [j [<- Hj]]. apply In_arange in Hi. simpl.
      replace (Z.to_nat (i - y)) with (S (Z.to_nat (i - (y + 1)))) by lia.
      reflexivity.
Qed.

(** Under the shape of the grid, [np.where (mask == 1)] lists the cells
    the loops retain, in the order the loops visit them. *)
Lemma where_rows_marked ncol nrow mask :
  shape nrow ncol mask -> where_rows 0 mask = marked mask ncol nrow.
Proof.
  intros Hs. pose proof Hs as [Hl HF].
  rewrite (where_rows_spec ncol) by assumption.
  unfold marked, cells.
  replace (arange 0 (0 + Z.of_nat (length mask))) with (range nrow)
    by (unfold range; f_equal; lia).
  apply filter_ext_in. intros [i j] Hin.
  apply (In_cells ncol nrow) in Hin. destruct Hin as [Hi Hj].
  unfold included; simpl.
  rewrite (getitem2_shape nrow ncol) by assumption.
  now replace (i - 0) with i by lia.
Qed.

Lemma StronglySorted_cells ncol nrow :
  StronglySorted (fun c c' => lin ncol c < lin ncol c') (cells ncol nrow).
Proof.
  unfold cells. apply (StronglySorted_flat_map Z.lt).
  - apply StronglySorted_arange.
  - intros i _. apply (StronglySorted_map Z.lt);
      [|apply StronglySorted_arange].
    intros x y Hxy. unfold lin; simpl. lia.
  - intros i i' c c' _ _ Hlt Hc Hc'.
    apply in_map_iff in Hc as [j [<- Hj]].
    apply in_map_iff in Hc' as [j' [<- Hj']].
    apply In_arange in Hj, Hj'. unfold lin; simpl. nia.
Qed.

(** X21.  With a mask of the shape of the grid, [cell_in] holds the
    linear ids [i * ncol + j] of the marked cells in the order the scan
    visits them: its [p]-th entry is the id of the cell the [p]-th count
    belongs to. *)
Theorem cell_in_lists_marked ncol nrow mask :
  shape nrow ncol mask ->
  elems (cell_in_of ncol mask) = map (lin ncol) (marked mask ncol nrow).
Proof.
  intros Hs. now rewrite elems_cell_in, (where_rows_marked ncol nrow).
Qed.

Lemma cell_in_lists_marked_witness :
  elems (cell_in_of 3 [[1; 0; 1]; [0; 1; 0]])
  = map (lin 3) (marked [[1; 0; 1]; [0; 1; 0]] 3 2).
Proof.
  apply (cell_in_lists_marked 3 2 [[1; 0; 1]; [0; 1; 0]]).
  split; [reflexivity|]. repeat constructor.
Defined.

(** X22.  With a mask of the shape of the grid, a scan that ends without
    raising has collected exactly one count per entry of the mask equal
    to 1. *)
Theorem scan_one_count_per_marked_cell ncol nrow rank mask nneigh adj :
  shape nrow ncol mask ->
  scan ncol nrow rank mask = Ok (nneigh, adj) ->
  length nneigh = count_ones mask.
Proof.
  intros Hs H. apply scan_eq in H as [-> _].
  rewrite length_map, <- (where_rows_marked ncol nrow) by assumption.
  apply length_where_rows.
Qed.

Lemma scan_one_count_per_marked_cell_witness :
  length [1; 1; 4; 1; 1] = count_ones [[1; 0; 1]; [0; 1; 0]; [1; 0; 1]].
Proof.
  apply (scan_one_count_per_marked_cell 3 3 1
           [[1; 0; 1]; [0; 1; 0]; [1; 0; 1]] [1; 1; 4; 1; 1]
           [4; 4; 0; 2; 6; 8; 4; 4]); [|reflexivity].
  split; [reflexivity|]. repeat constructor.
Defined.

(** X23.  With a mask of the shape of the grid, the entries of [cell_in]
    are strictly increasing, hence pairwise distinct. *)
Theorem cell_in_increasing ncol nrow mask :
  shape nrow ncol mask ->
  StronglySorted Z.lt (elems (cell_in_of ncol mask)).
Proof.
  intros Hs. rewrite elems_cell_in, (where_rows_marked ncol nrow) by assumption.
  apply (StronglySorted_map (fun c c' => lin ncol c < lin ncol c'));
    [auto|].
  unfold marked. apply StronglySorted_filter, StronglySorted_cells.
Qed.

Lemma cell_in_increasing_witness :
  StronglySorted Z.lt (elems (cell_in_of 3 [[1; 0; 1]; [0; 1; 0]])).
Proof.
  apply (cell_in_increasing 3 2 [[1; 0; 1]; [0; 1; 0]]).
  split; [reflexivity|]. repeat constructor.
Defined.

(** ** The region and the grid *)

Lemma bind_nil_Ok {A B} (a : A) (k : A -> io B) : bind ([], Ok a) k = k a.
Proof. unfold bind. now destruct (k a). Qed.

Lemma resolve_region_list gdal_Open a b c d rest :
  resolve_region gdal_Open None (Some (a :: b :: c :: d :: rest))
  = ([], Ok (a, b, c, d)).
Proof. reflexivity. Qed.

(** X24.  When neither a raster nor a region is given, both routines
    print the line [raster or region must be specified] and exit with
    status 1, before any other output, whatever the other arguments. *)
Theorem no_source_exits gdal_Open gdal_Rasterize vector csize rank :
  cellneigh gdal_Open None None csize rank
  = (["raster or region must be specified"%string], Raise (SystemExit 1)) /\
  cellneigh_ctry gdal_Open gdal_Rasterize None None vector csize rank
  = (["raster or region must be specified"%string], Raise (SystemExit 1)).
Proof. split; reflexivity. Qed.

(** X25.  When a raster is given and opens, the extent comes from its
    geotransform and size, [Xmin = gt[0]], [Xmax = gt[0] + gt[1] * xsize],
    [Ymin = gt[3] + gt[5] * ysize], [Ymax = gt[3]], nothing is printed,
    and the region argument is never read: both routines give the same
    outcome as without a region. *)
Theorem raster_takes_precedence gdal_Open gdal_Rasterize path ds region
  vector csize rank :
  gdal_Open path = Some ds ->
  resolve_region gdal_Open (Some path) region
  = ([], Ok (PyFloat (gt0 ds),
             PyFloat (gt0 ds + gt1 ds * inject_Z (RasterXSize ds)),
             PyFloat (gt3 ds + gt5 ds * inject_Z (RasterYSize ds)),
             PyFloat (gt3 ds))) /\
  cellneigh gdal_Open (Some path) region csize rank
  = cellneigh gdal_Open (Some path) None csize rank /\
  cellneigh_ctry gdal_Open gdal_Rasterize (Some path) region vector csize rank
  = cellneigh_ctry gdal_Open gdal_Rasterize (Some path) None vector csize rank.
Proof.
  intros H. split; [|split; reflexivity].
  unfold resolve_region. rewrite H. reflexivity.
Qed.

(** X26.  A region with fewer than four entries makes both routines raise
    [IndexError] before anything is printed. *)
Theorem short_region_raises gdal_Open gdal_Rasterize region vector csize
  rank :
  (length region < 4)%nat ->
  cellneigh gdal_Open None (Some region) csize rank = ([], Raise IndexError) /\
  cellneigh_ctry gdal_Open gdal_Rasterize None (Some region) vector csize rank
  = ([], Raise IndexError).
Proof.
  intros H.
  destruct region as [|a [|b [|c [|d rest]]]]; simpl in H; try lia;
    split; reflexivity.
Qed.

Lemma short_region_raises_witness :
  cellneigh (fun _ => None) None (Some [PyInt 0; PyInt 10000; PyInt 0])
    (PyInt 10) 1
  = ([], Raise IndexError).
Proof.
  refine (proj1 (short_region_raises (fun _ => None) (fun _ _ _ => [])
                   [PyInt 0; PyInt 10000; PyInt 0] EmptyString (PyInt 10) 1
                   _)).
  simpl. lia.
Defined.

Lemma raster_takes_precedence_witness :
  let ds := {| RasterXSize := 100; RasterYSize := 50;
               gt0 := 0 # 1; gt1 := 30 # 1; gt2 := 0 # 1;
               gt3 := 1500 # 1; gt4 := 0 # 1; gt5 := (-30) # 1 |} in
  resolve_region (fun _ => Some ds) (Some EmptyString) (Some [])
  = ([], Ok (PyFloat (gt0 ds),
             PyFloat (gt0 ds + gt1 ds * inject_Z (RasterXSize ds)),
             PyFloat (gt3 ds + gt5 ds * inject_Z (RasterYSize ds)),
             PyFloat (gt3 ds))).
Proof.
  intros ds.
  refine (proj1 (raster_takes_precedence (fun _ => Some ds)
                   (fun _ _ _ => []) EmptyString ds (Some []) EmptyString
                   (PyInt 10) 1 _)).
  reflexivity.
Defined.

Lemma inject_Z_eq0 z : (inject_Z z == 0)%Q -> z = 0.
Proof. unfold Qeq; simpl. lia. Qed.

(** The division of lines 53 and 54 by a cell size equal to zero. *)
Lemma div_zero_divisor a csize :
  (to_Q csize == 0)%Q ->
  div a (mul csize (PyInt 1000)) = Raise ZeroDivisionError.
Proof.
  intros H. destruct csize as [z|q]; simpl in H.
  - apply inject_Z_eq0 in H. subst z. destruct a; reflexivity.
  - assert (E : Qeq_bool (q * inject_Z 1000) 0 = true).
    { apply Qeq_bool_iff. rewrite H. apply Qmult_0_l. }
    destruct a; unfold mul, div, to_Q; now rewrite E.
Qed.

Lemma grid_zero_csize ext csize :
  (to_Q csize == 0)%Q ->
  exists line, grid ext csize = ([line], Raise ZeroDivisionError).
Proof.
  intros H. destruct ext as [[[Xmin Xmax] Ymin] Ymax].
  eexists. cbv beta iota zeta delta [grid bind print lift].
  rewrite (div_zero_divisor _ _ H). reflexivity.
Qed.

(** X27.  A cell size equal to zero makes both routines raise
    [ZeroDivisionError] after the first message, once the region is
    known; no grid dimension is produced. *)
Theorem zero_csize_raises gdal_Open gdal_Rasterize a b c d rest vector
  csize rank :
  (to_Q csize == 0)%Q ->
  exists line,
    cellneigh gdal_Open None (Some (a :: b :: c :: d :: rest)) csize rank
    = ([line], Raise ZeroDivisionError) /\
    cellneigh_ctry gdal_Open gdal_Rasterize None
      (Some (a :: b :: c :: d :: rest)) vector csize rank
    = ([line], Raise ZeroDivisionError).
Proof.
  intros H. destruct (grid_zero_csize (a, b, c, d) csize H) as [line E].
  exists line. unfold cellneigh, cellneigh_ctry.
  rewrite resolve_region_list, !bind_nil_Ok, E. split; reflexivity.
Qed.

Lemma zero_csize_raises_witness :
  exists line,
    cellneigh (fun _ => None) None
      (Some [PyInt 0; PyInt 10000; PyInt 0; PyInt 10000]) (PyInt 0) 1
    = ([line], Raise ZeroDivisionError).
Proof.
  destruct (zero_csize_raises (fun _ => None) (fun _ _ _ => [])
              (PyInt 0) (PyInt 10000) (PyInt 0) (PyInt 10000) []
              EmptyString (PyInt 0) 1) as [line [H _]].
  - reflexivity.
  - exists line. exact H.
Defined.

(** The grid of an integer region with an integer cell size: Python 2
    divides the integers with a floor, and the ceiling finds an integer. *)
Lemma grid_integers x0 x1 y0 y1 s :
  s <> 0 ->
  exists out,
    grid (PyInt x0, PyInt x1, PyInt y0, PyInt y1) (PyInt s)
    = (out, Ok (PyInt (s * 1000),
                (x1 - x0) / (s * 1000), (y1 - y0) / (s * 1000))).
Proof.
  intros H. eexists.
  cbv beta iota zeta delta [grid bind print lift ret div sub mul int_ceil].
  destruct (Z.eqb_spec (s * 1000) 0) as [E|_]; [lia|].
  reflexivity.
Qed.



(** X29.  A negative cell size is not rejected: with integer region
    bounds [Xmin <= Xmax], [cellneigh] prints its messages and returns
    empty outputs. *)
Theorem negative_csize_accepted gdal_Open x0 x1 y0 y1 rest s rank :
  s < 0 -> x0 <= x1 ->
  snd (cellneigh gdal_Open None
         (Some (PyInt x0 :: PyInt x1 :: PyInt y0 :: PyInt y1 :: rest))
         (PyInt s) rank)
  = Ok ([], []).
Proof.
  intros Hs Hx.
  destruct (grid_integers x0 x1 y0 y1 s ltac:(lia)) as [out E].
  unfold cellneigh. rewrite resolve_region_list, bind_nil_Ok, E.
  cbv beta iota zeta delta [bind print ret snd].
  rewrite build_cells.
  assert (Hn : (x1 - x0) / (s * 1000) <= 0).
  { rewrite <- Z.div_opp_opp by lia.
    apply Z.div_le_upper_bound; lia. }
  assert (Hc : cells ((x1 - x0) / (s * 1000)) ((y1 - y0) / (s * 1000)) = []).
  { apply length_zero_iff_nil. rewrite length_cells. lia. }
  now rewrite Hc.
Qed.

Lemma negative_csize_accepted_witness :
  snd (cellneigh (fun _ => None) None
         (Some [PyInt 0; PyInt 10000; PyInt 0; PyInt 10000]) (PyInt (-10)) 1)
  = Ok ([], []).
Proof.
  apply (negative_csize_accepted (fun _ => None) 0 10000 0 10000 [] (-10) 1);
    lia.
Defined.

(** *** Float extents *)





